(** * appleweather: location collection, weather pages, suggestion search

    A shallow embedding of the React Native weather application and the
    proofs of its specification's testable properties.

    The repository holds two generations of the same program:
    - the one in several files: the container [App], whose cities are
      [City] records deleted by id, and its two screens
      screens/WeatherSwiper and screens/MenuScreen;
    - the one in a single file, app/index.tsx: the container [Index], whose
      cities are plain strings deleted by position, with its
      [WeatherScreen] and [ManageCitiesScreen].

    React state is modelled by explicit state passing: an event handler is a
    function from the component state to the next state and the list of
    commands it issues to the platform (alerts, scrolling, timers).
    Asynchronous functions are split at their [await]s: the synchronous
    prefix runs when the call starts, the rest when the awaited replies
    arrive, so that the interleavings of several calls are event sequences. *)

From Stdlib Require Import String Ascii List Arith Lia Bool.
From stdpp Require Import base decidable option list strings gmap.

Local Open Scope string_scope.
Local Open Scope nat_scope.
Local Open Scope list_scope.

(** ** JavaScript strings

    Strings are sequences of code units; the embedding covers the code
    units below 256 (Latin-1), which is what [ascii] holds. *)
Module Js.

(** White space and line terminators of ECMAScript that [trim] strips,
    among the code units below 256: TAB, LF, VT, FF, CR, SP, NBSP. *)
Definition isWhiteSpace (c : ascii) : bool :=
  let n := nat_of_ascii c in
  Nat.eqb n 9 || Nat.eqb n 10 || Nat.eqb n 11 || Nat.eqb n 12
  || Nat.eqb n 13 || Nat.eqb n 32 || Nat.eqb n 160.

Fixpoint trimStart (s : string) : string :=
  match s with
  | EmptyString => EmptyString
  | String c r => if isWhiteSpace c then trimStart r else s
  end.

Fixpoint trimEnd (s : string) : string :=
  match s with
  | EmptyString => EmptyString
  | String c r =>
      match trimEnd r with
      | EmptyString => if isWhiteSpace c then EmptyString else String c EmptyString
      | r' => String c r'
      end
  end.

(** [String.prototype.trim] *)
Definition trim (s : string) : string := trimEnd (trimStart s).

(** Unicode simple lower-case mapping on the code units below 256:
    A-Z and the Latin-1 capitals (all of U+00C0..U+00DE but the
    multiplication sign U+00D7) move up by 32. *)
Definition lowerChar (c : ascii) : ascii :=
  let n := nat_of_ascii c in
  if (Nat.leb 65 n && Nat.leb n 90)
     || (Nat.leb 192 n && Nat.leb n 222 && negb (Nat.eqb n 215))
  then ascii_of_nat (n + 32) else c.

(** [String.prototype.toLowerCase] *)
Fixpoint toLowerCase (s : string) : string :=
  match s with
  | EmptyString => EmptyString
  | String c r => String (lowerChar c) (toLowerCase r)
  end.

(** A string in a boolean position: only the empty string is falsy. *)
Definition truthy (s : string) : bool :=
  match s with EmptyString => false | String _ _ => true end.

(** [s.split(sep)[0]] for a one-character separator: the part of [s]
    before the first separator. *)
Fixpoint split_first (sep : ascii) (s : string) : string :=
  match s with
  | EmptyString => EmptyString
  | String c r => if Ascii.eqb c sep then EmptyString else String c (split_first sep r)
  end.

(** [s.includes(c)] for a one-character [c]. *)
Fixpoint includes (c : ascii) (s : string) : bool :=
  match s with
  | EmptyString => false
  | String a r => Ascii.eqb a c || includes c r
  end.

End Js.

(** ** Texts shown to the user

    The translation tables behind [i18n.t] are not part of the sources, so
    a translated text is kept as the key and parameters it was asked for;
    [Lit] is a text the program (or a thrown error) carries verbatim.
    The wording of the message of a [TypeError] is the engine's, so such a
    message is kept as the place it was raised at. *)
Inductive TypeErrorSite : Type :=
(** [geoData.length] with [geoData] null *)
| length_of_null
(** [geoData[0]] with [geoData] null *)
| entry_of_null
(** [const { lat, .. } = geoData[0]] with [geoData[0]] undefined *)
| destructuring_undefined
(** the same with [geoData[0]] null *)
| destructuring_null.

Inductive Text : Type :=
| Lit (s : string)
| Tr (key : string) (params : list (string * string))
| TypeErrorMessage (site : TypeErrorSite).

Inductive UnitSystem : Type := imperial | metric.

Global Instance UnitSystem_eq_dec : EqDecision UnitSystem.
Proof. solve_decision. Defined.

(** ** Commands issued to the platform by the event handlers *)
Inductive Cmd : Type :=
| LayoutAnimation_configureNext
| Keyboard_dismiss
| Alert_alert (title : string) (message : Text)
| FlatList_scrollToIndex (index : nat)
(** [setTimeout(() => { flatListRef.current?.scrollToEnd(..); setMenuVisible(false) }, ms)] *)
| setTimeout_scrollToEnd (ms : nat).

(** A page the list view reports as viewable ([ViewToken]); [index] is
    [number | null]. *)
Record ViewToken : Type := { index : option nat }.

(** ** The container of the application in several files: [App] *)
Module App.

Record City : Type := { id : string; name : string }.

Global Instance City_eq_dec : EqDecision City.
Proof. solve_decision. Defined.

Record State : Type := {
  cities : list City;
  units : UnitSystem;
  locale : string;
  isMenuVisible : bool
}.

Definition initial (deviceLocale : string) : State :=
  {| cities := [ {| id := "Irvine, US"; name := "Irvine,US" |};
                 {| id := "London, GB"; name := "London,GB" |};
                 {| id := "Tokyo, JP"; name := "Tokyo,JP" |} ];
     units := imperial;
     locale := deviceLocale;
     isMenuVisible := false |}.

Definition setCities (cs : list City) (s : State) : State :=
  {| cities := cs; units := units s; locale := locale s;
     isMenuVisible := isMenuVisible s |}.

Definition setMenuVisible (b : bool) (s : State) : State :=
  {| cities := cities s; units := units s; locale := locale s;
     isMenuVisible := b |}.

Definition setUnits (u : UnitSystem) (s : State) : State :=
  {| cities := cities s; units := u; locale := locale s;
     isMenuVisible := isMenuVisible s |}.

Definition changeLocale (newLocale : string) (s : State) : State :=
  {| cities := cities s; units := units s; locale := newLocale;
     isMenuVisible := isMenuVisible s |}.

(** [cities.find(c => c.id.toLowerCase() === x.toLowerCase())], with the
    position of the hit. *)
Definition find_ci (x : string) (cs : list City) : option (nat * City) :=
  list_find (λ c, Js.toLowerCase (id c) = Js.toLowerCase x) cs.

(** [const index = cities.findIndex(c => c.id === cityId);
     if (index !== -1) flatListRef.current?.scrollToIndex({ animated: true, index });
     setMenuVisible(false);] *)
Definition handleCitySelect (cityId : string) (s : State) : State * list Cmd :=
  let index := list_find (λ c, id c = cityId) (cities s) in
  (setMenuVisible false s,
   match index with
   | Some (i, _) => [FlatList_scrollToIndex i]
   | None => []
   end).

(** [const newCityName = cityIdentifier.trim();
     if (newCityName && !cities.find(c => c.id.toLowerCase() === newCityName.toLowerCase()))
       { .. setCities(prevCities => [...prevCities, newCity]); .. }
     else if (newCityName) { Alert.alert("City Exists", i18n.t('cityExists', ..)); }] *)
Definition addCity (cityIdentifier : string) (s : State) : State * list Cmd :=
  let newCityName := Js.trim cityIdentifier in
  if Js.truthy newCityName && negb (bool_decide (is_Some (find_ci newCityName (cities s))))
  then
    let newCity := {| id := newCityName; name := newCityName |} in
    (setCities (cities s ++ [newCity]) s,
     [LayoutAnimation_configureNext; Keyboard_dismiss; setTimeout_scrollToEnd 300])
  else if Js.truthy newCityName then
    (s, [Alert_alert "City Exists" (Tr "cityExists" [("city", newCityName)])])
  else (s, []).

(** [if (cities.length <= 1) { Alert.alert("Cannot Delete", ..); return; }
     setCities(cities.filter((city) => city.id !== idToDelete));] *)
Definition deleteCity (idToDelete : string) (s : State) : State * list Cmd :=
  if Nat.leb (length (cities s)) 1 then
    (s, [Alert_alert "Cannot Delete" (Lit "You must have at least one city.")])
  else
    (setCities (filter (λ city, id city ≠ idToDelete) (cities s)) s,
     [LayoutAnimation_configureNext]).

End App.

(** Sequences of user operations on the collection of [App]. *)
Inductive AppOp : Type :=
| AppAdd (cityIdentifier : string)
| AppDelete (idToDelete : string).

Definition app_step (s : App.State) (op : AppOp) : App.State :=
  match op with
  | AppAdd x => fst (App.addCity x s)
  | AppDelete x => fst (App.deleteCity x s)
  end.

Definition app_run (ops : list AppOp) (s : App.State) : App.State :=
  fold_left app_step ops s.

(** [xs.filter((x, index) => p(x, index))]; [i] is the index of the head. *)
Fixpoint filter_with_index {A} (p : A → nat → bool) (i : nat) (xs : list A) : list A :=
  match xs with
  | [] => []
  | x :: r => if p x i then x :: filter_with_index p (S i) r
              else filter_with_index p (S i) r
  end.

(** ** The container of the application in a single file: [Index] *)
Module Index.

Record State : Type := {
  cities : list string;
  units : UnitSystem;
  (** the global [i18n.locale] and the counter that forces a re-render *)
  locale : string;
  forceUpdate : nat;
  activeIndex : nat;
  isMenuVisible : bool
}.

Definition initial (deviceLocale : string) : State :=
  {| cities := ["Irvine"; "London"; "Tokyo"];
     units := imperial;
     locale := deviceLocale;
     forceUpdate := 0;
     activeIndex := 0;
     isMenuVisible := false |}.

Definition setCities (cs : list string) (s : State) : State :=
  {| cities := cs; units := units s; locale := locale s;
     forceUpdate := forceUpdate s; activeIndex := activeIndex s;
     isMenuVisible := isMenuVisible s |}.

Definition setActiveIndex (i : nat) (s : State) : State :=
  {| cities := cities s; units := units s; locale := locale s;
     forceUpdate := forceUpdate s; activeIndex := i;
     isMenuVisible := isMenuVisible s |}.

Definition setUnits (u : UnitSystem) (s : State) : State :=
  {| cities := cities s; units := u; locale := locale s;
     forceUpdate := forceUpdate s; activeIndex := activeIndex s;
     isMenuVisible := isMenuVisible s |}.

Definition changeLocale (l : string) (s : State) : State :=
  {| cities := cities s; units := units s; locale := l;
     forceUpdate := forceUpdate s + 1; activeIndex := activeIndex s;
     isMenuVisible := isMenuVisible s |}.

(** [if (viewableItems.length > 0) setActiveIndex(viewableItems[0].index ?? 0);] *)
Definition onViewableItemsChanged (viewableItems : list ViewToken) (s : State) : State :=
  match viewableItems with
  | v :: _ => setActiveIndex (default 0 (index v)) s
  | [] => s
  end.

(** As [App.addCity], on strings: [setCities([...cities, newCity])], and
    the list scrolls to its end after 500 ms. *)
Definition addCity (city : string) (s : State) : State * list Cmd :=
  let newCity := Js.trim city in
  if Js.truthy newCity
     && negb (bool_decide (is_Some
          (list_find (λ c, Js.toLowerCase c = Js.toLowerCase newCity) (cities s))))
  then
    (setCities (cities s ++ [newCity]) s,
     [LayoutAnimation_configureNext; Keyboard_dismiss; setTimeout_scrollToEnd 500])
  else if Js.truthy newCity then
    (s, [Alert_alert "City Exists" (Tr "cityExists" [("city", newCity)])])
  else (s, []).

(** [if (cities.length <= 1) { Alert.alert("Cannot Delete", ..); return; }
     setCities(cities.filter((_, index) => index !== indexToDelete));] *)
Definition deleteCity (indexToDelete : nat) (s : State) : State * list Cmd :=
  if Nat.leb (length (cities s)) 1 then
    (s, [Alert_alert "Cannot Delete" (Lit "You must have at least one city.")])
  else
    (setCities (filter_with_index
                  (λ _ index, negb (Nat.eqb index indexToDelete)) 0 (cities s)) s,
     [LayoutAnimation_configureNext]).

End Index.

Inductive IndexOp : Type :=
| IndexAdd (city : string)
| IndexDelete (indexToDelete : nat).

Definition index_step (s : Index.State) (op : IndexOp) : Index.State :=
  match op with
  | IndexAdd x => fst (Index.addCity x s)
  | IndexDelete i => fst (Index.deleteCity i s)
  end.

Definition index_run (ops : list IndexOp) (s : Index.State) : Index.State :=
  fold_left index_step ops s.

(** ** The network, as the two screens see it

    [fetch] and [Response.json] return promises. *)
Module Net.

(** What a [catch] clause receives: an [Error] with its message, or a
    value that is not an [Error]. *)
Inductive Thrown : Type :=
| JsError (message : string)
| NotAnError.

Inductive Settled (A : Type) : Type :=
| Resolved (a : A)
| Rejected (e : Thrown).
Arguments Resolved {A} a.
Arguments Rejected {A} e.

(** A [Response]: its [ok] flag and what [json()] settles to. *)
Record Response (A : Type) : Type := { ok : bool; json : Settled A }.
Arguments ok {A} r.
Arguments json {A} r.

(** An entry of the geocoding endpoint's answer. The coordinates are
    kept as the decimal text that goes into the next URL. *)
Record GeoEntry : Type := {
  lat : string;
  lon : string;
  name : string;
  country : string;
  state : option string;
  local_names : option (gmap string string)
}.

(** [/geo/1.0/direct?q=..&limit=..] *)
Record GeoRequest : Type := { q : string; limit : nat }.

(** [/data/3.0/onecall?lat=..&lon=..&units=..&exclude=minutely,alerts&lang=..] *)
Record OneCallRequest : Type := {
  req_lat : string;
  req_lon : string;
  req_units : UnitSystem;
  req_lang : string
}.

(** The body of the geocoding answer once parsed: [if (data)] tells
    [null] from the rest, and only an array has [forEach]. *)
Inductive GeoBody : Type :=
| JsonNull
| JsonArray (items : list GeoEntry)
| JsonObject.

(** The same body as [fetchWeather] reads it, through [geoData.length]
    and [geoData[0]]: [null]; an array, whose entries are candidates or
    [null]; or a value that is neither and has no [length] and no entry
    [0] (an error report, a number, a boolean). Candidates come with all
    their fields, and a body that is a JSON string, whose entries are
    characters, is not among the answers considered. *)
Inductive GeoData : Type :=
| GeoNull
| GeoArray (entries : list (option GeoEntry))
| GeoNoArray.

End Net.

(** ** screens/WeatherSwiper.tsx: one page per city, and the swiper

    [Body] is the parsed one-call answer (current, hourly and daily
    series), which the page only displays. The [WeatherScreen] of [Index]
    is the same component with the city given as a plain string and no
    [country] in the result. *)
Module WeatherSwiper.
Import Net.

(** The property names every object inherits from [Object.prototype]:
    under each of them an object with no such property of its own gives
    what it inherits, a function (the prototype itself under
    [__proto__]), which is truthy. *)
Definition Object_prototype_keys : list string :=
  [ "constructor"; "hasOwnProperty"; "isPrototypeOf"; "propertyIsEnumerable";
    "toLocaleString"; "toString"; "valueOf"; "__proto__";
    "__defineGetter__"; "__defineSetter__"; "__lookupGetter__"; "__lookupSetter__" ].

(** What [local_names?.[langCode] || name] evaluates to: a name, or what
    [local_names] inherits under [langCode]. *)
Inductive NameValue : Type :=
| NameText (s : string)
| Inherited (key : string).

Section Page.
Context {Body : Type}.

(** [{ ...fetchedWeatherData, name: displayName, country }] *)
Record WeatherData : Type := {
  wd_name : NameValue;
  wd_country : string;
  wd_body : Body
}.

(** What the endpoints answer at the moment a call reaches them. *)
Record Network : Type := {
  geo_direct : GeoRequest → Settled (Response GeoData);
  onecall : OneCallRequest → Settled (Response Body)
}.

Record Props : Type := { city : App.City; lang : string; units : UnitSystem }.

Record PageState : Type := {
  weatherData : option WeatherData;
  loading : bool;
  error : option Text
}.

Definition useState_initial : PageState :=
  {| weatherData := None; loading := true; error := None |}.

Definition setWeatherData (d : WeatherData) (s : PageState) : PageState :=
  {| weatherData := Some d; loading := loading s; error := error s |}.
Definition setLoading (b : bool) (s : PageState) : PageState :=
  {| weatherData := weatherData s; loading := b; error := error s |}.
Definition setError (e : option Text) (s : PageState) : PageState :=
  {| weatherData := weatherData s; loading := loading s; error := e |}.

(** [local_names?.[langCode] || name]: the property of [local_names]
    itself when it has one (the empty string is falsy), else what it
    inherits, else [undefined]. *)
Definition displayName (g : GeoEntry) (langCode : string) : NameValue :=
  match local_names g with
  | Some names =>
      match names !! langCode with
      | Some n => if Js.truthy n then NameText n else NameText (name g)
      | None =>
          if bool_decide (langCode ∈ Object_prototype_keys) then Inherited langCode
          else NameText (name g)
      end
  | None => NameText (name g)
  end.

Definition apiLang (langCode : string) : string :=
  if bool_decide (langCode = "zh") then "zh_cn" else langCode.

Definition geo_request (p : Props) : GeoRequest :=
  {| q := App.name (city p); limit := 1 |}.

Definition onecall_request (p : Props) (g : GeoEntry) : OneCallRequest :=
  {| req_lat := lat g; req_lon := lon g; req_units := units p;
     req_lang := apiLang (Js.split_first "-" (lang p)) |}.

(** [err instanceof Error ? err.message : i18n.t('errorDefault')] for a
    rejection of [fetch] or [json]. *)
Definition catch_message (err : Thrown) : Text :=
  match err with
  | JsError message => Lit message
  | NotAnError => Tr "errorDefault" []
  end.

(** [geoData.length === 0]: reading [length] of [null] throws; a value
    that is no array has none, and [undefined === 0] is false. *)
Definition length_is_0 (geoData : GeoData) : TypeErrorSite + bool :=
  match geoData with
  | GeoNull => inl length_of_null
  | GeoArray entries => inr (Nat.eqb (length entries) 0)
  | GeoNoArray => inr false
  end.

(** [const { lat, lon, name, country, local_names } = geoData[0]]:
    destructuring [undefined] or [null] throws. *)
Definition first_entry (geoData : GeoData) : TypeErrorSite + GeoEntry :=
  match geoData with
  | GeoNull => inl entry_of_null
  | GeoArray (Some g :: _) => inr g
  | GeoArray (None :: _) => inl destructuring_null
  | GeoArray [] => inl destructuring_undefined
  | GeoNoArray => inl destructuring_undefined
  end.

(** The [try] block of [fetchWeather] with its [catch]: the snapshot handed
    to [setWeatherData], or the message handed to [setError].
    [const geoResponse = await fetch(geoUrl);
     const geoData = await geoResponse.json();
     if (!geoResponse.ok || geoData.length === 0) throw new Error(i18n.t('errorCityNotFound', { city: city.name }));
     const { lat, lon, name, country, local_names } = geoData[0];
     ..
     const weatherResponse = await fetch(weatherUrl);
     if (!weatherResponse.ok) throw new Error(i18n.t('errorApiKey'));
     const fetchedWeatherData = await weatherResponse.json();
     setWeatherData({ ...fetchedWeatherData, name: displayName, country });]
    A [throw new Error(i18n.t(..))] of the block itself arrives in [catch]
    as an [Error] with that text, and a [TypeError] of the engine as an
    [Error] with the engine's message. [||] does not look at
    [geoData.length] when the answer is no success. *)
Definition fetchWeather_try (p : Props) (net : Network) : WeatherData + Text :=
  match geo_direct net (geo_request p) with
  | Rejected err => inr (catch_message err)
  | Resolved geoResponse =>
      match json geoResponse with
      | Rejected err => inr (catch_message err)
      | Resolved geoData =>
          match (if negb (ok geoResponse) then inr true else length_is_0 geoData) with
          | inl site => inr (TypeErrorMessage site)
          | inr true => inr (Tr "errorCityNotFound" [("city", App.name (city p))])
          | inr false =>
              match first_entry geoData with
              | inl site => inr (TypeErrorMessage site)
              | inr g =>
                  let langCode := Js.split_first "-" (lang p) in
                  match onecall net (onecall_request p g) with
                  | Rejected err => inr (catch_message err)
                  | Resolved weatherResponse =>
                      if negb (ok weatherResponse) then inr (Tr "errorApiKey" [])
                      else
                        match json weatherResponse with
                        | Rejected err => inr (catch_message err)
                        | Resolved fetchedWeatherData =>
                            inl {| wd_name := displayName g langCode;
                                   wd_country := country g;
                                   wd_body := fetchedWeatherData |}
                        end
                  end
              end
          end
      end
  end.

(** [fetchWeather] up to its first [await]:
    [setLoading(true); setError(null);] *)
Definition fetchWeather_begin (s : PageState) : PageState :=
  setError None (setLoading true s).

(** [fetchWeather] once its [try] block is through: [setWeatherData(..)]
    or [catch (err) { setError(..) }], and then
    [finally { setLoading(false) }]. *)
Definition fetchWeather_end (r : WeatherData + Text) (s : PageState) : PageState :=
  match r with
  | inl d => setLoading false (setWeatherData d s)
  | inr message => setLoading false (setError (Some message) s)
  end.

(** The mounted page: the props of its last render, its state, and the
    calls of [fetchWeather] that still await the network, each with the
    props its closure holds. *)
Record Page : Type := {
  props : Props;
  st : PageState;
  inflight : gmap nat Props;
  calls : nat
}.

(** The effect [useEffect(() => { fetchWeather() }, [fetchWeather])]
    runs: a call starts with the props of the render. *)
Definition run_effect (p : Props) (pg : Page) : Page :=
  {| props := p;
     st := fetchWeather_begin (st pg);
     inflight := <[calls pg := p]> (inflight pg);
     calls := S (calls pg) |}.

Definition mount (p : Props) : Page :=
  run_effect p {| props := p; st := useState_initial; inflight := ∅; calls := 0 |}.

Inductive Event : Type :=
(** the swiper renders the page again with these props *)
| Render (p : Props)
(** the replies the call [c] awaits arrive *)
| Settle (c : nat) (net : Network).

Global Instance Props_eq_dec : EqDecision Props.
Proof. solve_decision. Defined.

Definition step (pg : Page) (ev : Event) : Page :=
  match ev with
  | Render p =>
      (* [fetchWeather] is rebuilt, and the effect runs again, when
         [city], [lang] or [units] changed *)
      if decide (p = props pg) then pg else run_effect p pg
  | Settle c net =>
      match inflight pg !! c with
      | Some p =>
          {| props := props pg;
             st := fetchWeather_end (fetchWeather_try p net) (st pg);
             inflight := delete c (inflight pg);
             calls := calls pg |}
      | None => pg
      end
  end.

Definition run (evs : list Event) (pg : Page) : Page := fold_left step evs pg.

(** What the page shows: [{loading && ..} {error && ..}
    {weatherData && ..}], the snapshot with the unit labels of the
    current [units]. *)
Record Shown : Type := {
  spinner : bool;
  errorText : option Text;
  snapshot : option (WeatherData * UnitSystem)
}.

Definition render (pg : Page) : Shown :=
  {| spinner := loading (st pg);
     errorText := match error (st pg) with
                  | Some (Lit EmptyString) => None
                  | e => e
                  end;
     snapshot := (λ d, (d, units (props pg))) <$> weatherData (st pg) |}.

End Page.
Arguments WeatherData : clear implicits.
Arguments Network : clear implicits.
Arguments PageState : clear implicits.
Arguments Page : clear implicits.
Arguments Event : clear implicits.
Arguments Shown : clear implicits.

(** The swiper's own state. *)
Record State : Type := { activeIndex : nat }.

(** [if (viewableItems.length > 0) setActiveIndex(viewableItems[0].index ?? 0);] *)
Definition onViewableItemsChanged (viewableItems : list ViewToken) (s : State) : State :=
  match viewableItems with
  | v :: _ => {| activeIndex := default 0 (index v) |}
  | [] => s
  end.

End WeatherSwiper.

(** ** screens/MenuScreen.tsx: the search box and its suggestions

    The search box of [Index] ([ManageCitiesScreen]) has the same effect
    and the same [fetchSuggestions]; there a chosen suggestion goes
    through a preview to [Index.addCity]. *)
Module MenuScreen.

Record Suggestion : Type := {
  name : string;
  country : string;
  state : option string
}.

Global Instance Suggestion_eq_dec : EqDecision Suggestion.
Proof. solve_decision. Defined.

(** A [Map<string, Suggestion>]: the entries in insertion order; [set] on
    a key that is there replaces its value in place. *)
Definition Map_has (key : string) (map : list (string * Suggestion)) : bool :=
  bool_decide (key ∈ map.*1).

Definition Map_set (key : string) (v : Suggestion) (map : list (string * Suggestion))
  : list (string * Suggestion) :=
  if Map_has key map
  then (λ e, if bool_decide (e.1 = key) then (key, v) else e) <$> map
  else map ++ [(key, v)].

Definition Map_values (map : list (string * Suggestion)) : list Suggestion := map.*2.

(** [`${item.name},${item.country}`] *)
Definition key_of (item : Net.GeoEntry) : string :=
  Net.name item +:+ "," +:+ Net.country item.

Definition suggestion_of (item : Net.GeoEntry) : Suggestion :=
  {| name := Net.name item; country := Net.country item; state := Net.state item |}.

(** The body of [data.forEach(item => ..)]:
    [const key = `${item.name},${item.country}`;
     if (!map.has(key)) map.set(key, { name: item.name, country: item.country, state: item.state });] *)
Definition forEach_body (map : list (string * Suggestion)) (item : Net.GeoEntry)
  : list (string * Suggestion) :=
  let key := key_of item in
  if negb (Map_has key map) then Map_set key (suggestion_of item) map else map.

(** [Array.from(map.values())] once [data.forEach] is through. *)
Definition suggestions_of (data : list Net.GeoEntry) : list Suggestion :=
  Map_values (fold_left forEach_body data []).

(** A callback handed to [setTimeout] and not yet run or cleared:
    [() => fetchSuggestions(query)], due at [due] milliseconds. *)
Record Timer : Type := { timer_id : nat; due : nat; query : string }.

Global Instance Timer_eq_dec : EqDecision Timer.
Proof. solve_decision. Defined.

(** The state of the screen ([isSettingsVisible], which only opens the
    settings, is left out) and of the timers it has set. *)
Record State : Type := {
  searchInput : string;
  suggestions : list Suggestion;
  (** the clock in milliseconds and the pending timers *)
  now : nat;
  timers : list Timer;
  nextTimer : nat;
  (** the timer that the cleanup returned by the last run of the effect
      clears, if that run returned one *)
  cleanup : option nat;
  (** the queries sent to the geocoding endpoint so far, in order *)
  lookups : list string
}.

Definition setSuggestions (l : list Suggestion) (s : State) : State :=
  {| searchInput := searchInput s; suggestions := l; now := now s;
     timers := timers s; nextTimer := nextTimer s; cleanup := cleanup s;
     lookups := lookups s |}.

Definition setTimeout (q : string) (ms : nat) (s : State) : State * nat :=
  ({| searchInput := searchInput s; suggestions := suggestions s; now := now s;
      timers := timers s ++ [ {| timer_id := nextTimer s; due := now s + ms; query := q |} ];
      nextTimer := S (nextTimer s); cleanup := cleanup s; lookups := lookups s |},
   nextTimer s).

Definition clearTimeout (timer : nat) (s : State) : State :=
  {| searchInput := searchInput s; suggestions := suggestions s; now := now s;
     timers := filter (λ tm, timer_id tm ≠ timer) (timers s);
     nextTimer := nextTimer s; cleanup := cleanup s; lookups := lookups s |}.

Definition with_cleanup (c : option nat) (s : State) : State :=
  {| searchInput := searchInput s; suggestions := suggestions s; now := now s;
     timers := timers s; nextTimer := nextTimer s; cleanup := c;
     lookups := lookups s |}.

(** [fetchSuggestions] up to its first [await]: the request leaves, unless
    the query is short.
    [if (query.length < 3) { setSuggestions([]); return; }
     .. const response = await fetch(url);] *)
Definition fetchSuggestions_begin (query : string) (s : State) : State :=
  if Nat.ltb (String.length query) 3 then setSuggestions [] s
  else
    {| searchInput := searchInput s; suggestions := suggestions s; now := now s;
       timers := timers s; nextTimer := nextTimer s; cleanup := cleanup s;
       lookups := lookups s ++ [query] |}.

(** [fetchSuggestions] from the reply on. [response.ok] is not looked at;
    a body that is no array has no [forEach], which throws into [catch]. *)
Definition fetchSuggestions_end (reply : Net.Settled (Net.Response Net.GeoBody))
  (s : State) : State :=
  match reply with
  | Net.Rejected _ => setSuggestions [] s
  | Net.Resolved response =>
      match Net.json response with
      | Net.Rejected _ => setSuggestions [] s
      | Net.Resolved Net.JsonNull => s
      | Net.Resolved (Net.JsonArray data) => setSuggestions (suggestions_of data) s
      | Net.Resolved Net.JsonObject => setSuggestions [] s
      end
  end.

(** The body of the effect on [searchInput]:
    [if (searchInput.trim().length > 2) {
       const timer = setTimeout(() => fetchSuggestions(searchInput), 300);
       return () => clearTimeout(timer);
     } else { setSuggestions([]); }] *)
Definition effect (s : State) : State :=
  if Nat.ltb 2 (String.length (Js.trim (searchInput s))) then
    let '(s', timer) := setTimeout (searchInput s) 300 s in
    with_cleanup (Some timer) s'
  else with_cleanup None (setSuggestions [] s).

(** The function the last run of the effect returned, if it returned one. *)
Definition run_cleanup (s : State) : State :=
  match cleanup s with
  | Some timer => clearTimeout timer s
  | None => s
  end.

(** [setSearchInput(q)], which is [onChangeText]: when the text changes the
    screen renders again, the cleanup of the last run of the effect runs,
    and then the effect. *)
Definition setSearchInput (q : string) (s : State) : State :=
  if decide (q = searchInput s) then s
  else
    effect (run_cleanup
      {| searchInput := q; suggestions := suggestions s; now := now s;
         timers := timers s; nextTimer := nextTimer s; cleanup := cleanup s;
         lookups := lookups s |}).

Definition mount (t0 : nat) : State :=
  effect {| searchInput := EmptyString; suggestions := []; now := t0; timers := [];
            nextTimer := 1; cleanup := None; lookups := [] |}.

(** [dt] milliseconds pass: the timers that come due run, in the order
    they were set. *)
Definition advance (dt : nat) (s : State) : State :=
  let t := now s + dt in
  fold_left (λ s tm, fetchSuggestions_begin (query tm) s)
    (filter (λ tm, due tm ≤ t) (timers s))
    {| searchInput := searchInput s; suggestions := suggestions s; now := t;
       timers := filter (λ tm, ¬ due tm ≤ t) (timers s);
       nextTimer := nextTimer s; cleanup := cleanup s; lookups := lookups s |}.

(** Keystrokes, each with the time since the one before. *)
Definition keystrokes (ks : list (nat * string)) (s : State) : State :=
  fold_left (λ s k, setSearchInput k.2 (advance k.1 s)) ks s.

(** [const cityIdentifier = `${city.name}, ${city.country}`;
     const existingCity = savedCities.find(c => c.id.toLowerCase() === cityIdentifier.toLowerCase());
     if (existingCity) onCitySelect(existingCity.id); else onAddCity(cityIdentifier);
     setSearchInput(''); setSuggestions([]);]
    where the container passes [handleCitySelect] and [addCity]. *)
Definition handleSelectSuggestion (city : Suggestion) (app : App.State) (s : State)
  : App.State * State * list Cmd :=
  let cityIdentifier := name city +:+ ", " +:+ country city in
  let existingCity := App.find_ci cityIdentifier (App.cities app) in
  let '(app', cmds) :=
    match existingCity with
    | Some (_, c) => App.handleCitySelect (App.id c) app
    | None => App.addCity cityIdentifier app
    end in
  (app', setSuggestions [] (setSearchInput EmptyString s), cmds).

End MenuScreen.

(** Every keystroke of the list changes the text (a keystroke that leaves
    the text as it is does not reach [onChangeText]'s effect). *)
Fixpoint each_changes (current : string) (ks : list (nat * string)) : Prop :=
  match ks with
  | [] => True
  | k :: r => k.2 ≠ current ∧ each_changes k.2 r
  end.

(** The elements of [l] whose key is neither in [seen] nor the key of an
    earlier element of [l]: the first occurrence of every key, in the
    order of [l]. *)
Fixpoint first_occurrences_from {A K} `{EqDecision K} (key : A → K)
  (seen : list K) (l : list A) : list A :=
  match l with
  | [] => []
  | x :: r =>
      if decide (key x ∈ seen) then first_occurrences_from key seen r
      else x :: first_occurrences_from key (key x :: seen) r
  end.

Definition first_occurrences {A K} `{EqDecision K} (key : A → K) (l : list A) : list A :=
  first_occurrences_from key [] l.

(** The pair the specification deduplicates by. *)
Definition pair_of (item : Net.GeoEntry) : string * string :=
  (Net.name item, Net.country item).

(** The failure kinds of the specification, read off the text a page
    stores in [error]: the two texts [fetchWeather] throws itself, and
    everything else, which is the message of an error thrown to it. *)
Inductive ErrorKind : Type := CityNotFound | UpstreamError | NetworkError.

Definition error_kind (message : Text) : ErrorKind :=
  match message with
  | Tr key _ =>
      if bool_decide (key = "errorCityNotFound") then CityNotFound
      else if bool_decide (key = "errorApiKey") then UpstreamError
      else NetworkError
  | Lit _ => NetworkError
  | TypeErrorMessage _ => NetworkError
  end.

Section FetchOutcome.
Import Net WeatherSwiper.
Context {Body : Type}.

(** The page is in the specification's [Failed(k)]. *)
Definition failed_with (k : ErrorKind) (s : PageState Body) : Prop :=
  ∃ message, error s = Some message ∧ error_kind message = k.

(** The geocoding endpoint answered with success and [g] is its first
    candidate. *)
Definition geocoded (p : Props) (net : Network Body) (g : GeoEntry) : Prop :=
  ∃ geoResponse rest,
    geo_direct net (geo_request p) = Resolved geoResponse
    ∧ json geoResponse = Resolved (GeoArray (Some g :: rest))
    ∧ ok geoResponse = true.

(** The geocoding endpoint answered, its body was read, and the answer is
    not a success or has no candidate. *)
Definition geocoding_fails (p : Props) (net : Network Body) : Prop :=
  ∃ geoResponse geoData,
    geo_direct net (geo_request p) = Resolved geoResponse
    ∧ json geoResponse = Resolved geoData
    ∧ (ok geoResponse = false ∨ geoData = GeoArray []).

(** The weather endpoint answered, and not with success. *)
Definition weather_not_ok (p : Props) (net : Network Body) : Prop :=
  ∃ g weatherResponse,
    geocoded p net g
    ∧ onecall net (onecall_request p g) = Resolved weatherResponse
    ∧ ok weatherResponse = false.

(** Section 4.2 of the specification, as it reads: the geocoding step
    "returns zero candidates or the call fails"; "a network-level failure"
    is a request that gets no answer. *)
Definition geocoding_empty_or_not_ok (p : Props) (net : Network Body) : Prop :=
  ∃ geoResponse,
    geo_direct net (geo_request p) = Resolved geoResponse
    ∧ (ok geoResponse = false ∨ json geoResponse = Resolved (GeoArray [])).

Definition fetch_rejected (p : Props) (net : Network Body) : Prop :=
  (∃ err, geo_direct net (geo_request p) = Rejected err)
  ∨ (∃ g err, geocoded p net g ∧ onecall net (onecall_request p g) = Rejected err).

(** The geocoding endpoint answered without success and with a body that
    cannot be read. *)
Definition geocoding_not_ok_unreadable (p : Props) (net : Network Body) : Prop :=
  ∃ geoResponse err,
    geo_direct net (geo_request p) = Resolved geoResponse
    ∧ ok geoResponse = false
    ∧ json geoResponse = Rejected err.

(** The [TypeError] a body of the geocoding answer that is no array of
    candidates ends in, when the answer is a success. *)
Definition malformed (geoData : GeoData) : option TypeErrorSite :=
  match geoData with
  | GeoNull => Some length_of_null
  | GeoNoArray => Some destructuring_undefined
  | GeoArray (None :: _) => Some destructuring_null
  | GeoArray _ => None
  end.

(** An error other than the two of the block itself is thrown inside
    [try], and [message] is what [catch] makes of it: a [fetch] that is
    rejected, a body that cannot be read, or a geocoding body that is no
    array of candidates. *)
Definition thrown_into_catch (p : Props) (net : Network Body) (message : Text) : Prop :=
  (∃ err, geo_direct net (geo_request p) = Rejected err
          ∧ message = catch_message err)
  ∨ (∃ geoResponse err,
       geo_direct net (geo_request p) = Resolved geoResponse
       ∧ json geoResponse = Rejected err
       ∧ message = catch_message err)
  ∨ (∃ geoResponse geoData site,
       geo_direct net (geo_request p) = Resolved geoResponse
       ∧ ok geoResponse = true
       ∧ json geoResponse = Resolved geoData
       ∧ malformed geoData = Some site
       ∧ message = TypeErrorMessage site)
  ∨ (∃ g, geocoded p net g
       ∧ ((∃ err, onecall net (onecall_request p g) = Rejected err
                  ∧ message = catch_message err)
          ∨ (∃ weatherResponse err,
               onecall net (onecall_request p g) = Resolved weatherResponse
               ∧ ok weatherResponse = true
               ∧ json weatherResponse = Rejected err
               ∧ message = catch_message err))).

End FetchOutcome.

Definition failure_kinds_as_specified : Prop :=
  ∀ Body (p : WeatherSwiper.Props) (net : WeatherSwiper.Network Body)
    (s : WeatherSwiper.PageState Body),
    let s' := WeatherSwiper.fetchWeather_end (WeatherSwiper.fetchWeather_try p net)
                (WeatherSwiper.fetchWeather_begin s) in
    (failed_with CityNotFound s' ↔ geocoding_empty_or_not_ok p net)
    ∧ (failed_with UpstreamError s' ↔ weather_not_ok p net)
    ∧ (failed_with NetworkError s' ↔ fetch_rejected p net).

(** The two notices of the collection, as the handlers raise them. *)
Definition cityExists (newCityName : string) : list Cmd :=
  [Alert_alert "City Exists" (Tr "cityExists" [("city", newCityName)])].

Definition cannotDelete : list Cmd :=
  [Alert_alert "Cannot Delete" (Lit "You must have at least one city.")].

(** Non-empty and with pairwise different ids: kept by every operation. *)
Definition App_wf (s : App.State) : Prop :=
  1 ≤ length (App.cities s) ∧ NoDup (App.id <$> App.cities s).

Definition Index_wf (s : Index.State) : Prop := 1 ≤ length (Index.cities s).

(** The ids of the tracked locations, in order (in [Index] a city is its
    own id). *)
Definition App_ids (s : App.State) : list string := App.id <$> App.cities s.
Definition Index_ids (s : Index.State) : list string := Index.cities s.

(** Some id of the list equals [x] up to case. *)
Definition ci_member (x : string) (ids : list string) : Prop :=
  ∃ i, i ∈ ids ∧ Js.toLowerCase i = Js.toLowerCase x.

(** No two ids of the list are equal up to case. *)
Definition ci_unique (ids : list string) : Prop :=
  NoDup (Js.toLowerCase <$> ids).

(** What a successful [addCity] issues, with the delay of its variant. *)
Definition added (ms : nat) : list Cmd :=
  [LayoutAnimation_configureNext; Keyboard_dismiss; setTimeout_scrollToEnd ms].


(** ** The ordering and freshness properties of the specification, and the
    runs they are tried on *)
Section PageProperties.
Import Net WeatherSwiper.

(** The result [r] of a fetch is what the page holds: its snapshot after a
    success, its message after a failure. *)
Definition landed {Body} (r : WeatherData Body + Text) (s : PageState Body) : Prop :=
  match r with
  | inl d => weatherData s = Some d
  | inr message => error s = Some message
  end.

(** Section 4.2 of the specification: of two fetches of one key in flight,
    the later initiated one ([a < b]: calls are numbered as they start) is
    the one whose result is stored, in whichever order the two complete. *)
Definition last_initiated_wins : Prop :=
  ∀ Body (pg : Page Body) (a b : nat) (p : Props) (netA netB : Network Body),
    a < b → inflight pg !! a = Some p → inflight pg !! b = Some p →
    landed (fetchWeather_try p netB) (st (run [Settle a netA; Settle b netB] pg))
    ∧ landed (fetchWeather_try p netB) (st (run [Settle b netB; Settle a netA] pg)).

(** Section 8 of the specification: once [units] or [lang] changed, the
    page shows no snapshot until a fetch under the new preferences brings
    one: right after the change it shows none. *)
Definition stale_snapshot_never_shown : Prop :=
  ∀ Body (pg : Page Body) (p' : Props),
    city p' = city (props pg) →
    (units p' ≠ units (props pg) ∨ lang p' ≠ lang (props pg)) →
    snapshot (render (step pg (Render p'))) = None.

Definition paris : App.City := {| App.id := "Paris, FR"; App.name := "Paris,FR" |}.

Definition paris_entry : GeoEntry :=
  {| lat := "48.8589"; lon := "2.32"; name := "Paris"; country := "FR";
     state := None; local_names := None |}.

Definition paris_in (u : UnitSystem) : Props :=
  {| city := paris; lang := "en"; units := u |}.

(** Both endpoints answer with success; the one-call body is [body]. *)
Definition answering (body : OneCallRequest → string) : Network string :=
  {| geo_direct := λ _, Resolved {| ok := true;
                                    json := Resolved (GeoArray [Some paris_entry]) |};
     onecall := λ req, Resolved {| ok := true; json := Resolved (body req) |} |}.

(** The geocoding endpoint answers 502 with a page that is no JSON. *)
Definition html_error_page : Network string :=
  {| geo_direct := λ _, Resolved {| ok := false;
                                    json := Rejected (JsError "JSON Parse error") |};
     onecall := λ _, Rejected (JsError "Network request failed") |}.

(** Behind a portal that answers every request with its own page: both
    endpoints answer with success and a body that is no JSON. *)
Definition captive_portal : Network string :=
  {| geo_direct := λ _, Resolved {| ok := true;
                                    json := Rejected (JsError "JSON Parse error: Unexpected token: <") |};
     onecall := λ _, Resolved {| ok := true;
                                 json := Rejected (JsError "JSON Parse error: Unexpected token: <") |} |}.

(** The geocoding endpoint answers with success and the body [null]. *)
Definition null_geocoding_body : Network string :=
  {| geo_direct := λ _, Resolved {| ok := true; json := Resolved GeoNull |};
     onecall := λ _, Rejected (JsError "Network request failed") |}.

(** No endpoint can be reached. *)
Definition offline : Network string :=
  {| geo_direct := λ _, Rejected (JsError "Network request failed");
     onecall := λ _, Rejected (JsError "Network request failed") |}.

Definition paris_snapshot (body : string) : WeatherData string :=
  {| wd_name := NameText "Paris"; wd_country := "FR"; wd_body := body |}.

(** The body tells the units it was computed in. *)
Definition body_by_units (req : OneCallRequest) : string :=
  match req_units req with
  | imperial => "70 F, wind 9 mph"
  | metric => "21 C, wind 4 m/s"
  end.

(** Mounted under imperial, switched to metric and back while the first
    call is still out: the calls 0 and 2 are for one key. *)
Definition toggled_twice : Page string :=
  run [Render (paris_in metric); Render (paris_in imperial)] (mount (paris_in imperial)).

(** Mounted under metric, and the fetch came back. *)
Definition paris_metric_loaded : Page string :=
  run [Settle 0 (answering body_by_units)] (mount (paris_in metric)).

End PageProperties.

(** Nothing is pending on the search box, or the one lookup the last run of
    the effect scheduled: for the text in the box, 300 ms from now, and
    the one the cleanup clears. *)
Definition one_pending (s : MenuScreen.State) : Prop :=
  MenuScreen.timers s = []
  ∨ ∃ timer,
      MenuScreen.timers s
      = [ {| MenuScreen.timer_id := timer;
             MenuScreen.due := MenuScreen.now s + 300;
             MenuScreen.query := MenuScreen.searchInput s |} ]
      ∧ MenuScreen.cleanup s = Some timer
      ∧ timer < MenuScreen.nextTimer s.

(** Section 4.4 of the specification: deleting the entry at [i], at or
    before the active index, moves the active index down by one, not
    below 0; deleting after it leaves it. *)
Definition delete_reclamps_active_index : Prop :=
  ∀ (s : Index.State) (i : nat),
    2 ≤ length (Index.cities s) →
    Index.activeIndex s < length (Index.cities s) →
    i < length (Index.cities s) →
    Index.activeIndex (fst (Index.deleteCity i s))
    = if Nat.leb i (Index.activeIndex s) then Index.activeIndex s - 1
      else Index.activeIndex s.

(** The collection [A, B] with the second page in view. *)
Definition viewing_B : Index.State :=
  Index.setActiveIndex 1 (Index.setCities ["A"; "B"] (Index.initial "en-US")).

(** The states and replies the properties are tried on. *)
Definition only_tokyo : App.State :=
  App.setCities [ {| App.id := "Tokyo, JP"; App.name := "Tokyo,JP" |} ]
    (App.initial "en-US").

Definition only_tokyo_index : Index.State :=
  Index.setCities ["Tokyo"] (Index.initial "en-US").

Definition at_nine : WeatherSwiper.Network string := answering (λ _, "61 F at nine").
Definition at_noon : WeatherSwiper.Network string := answering (λ _, "70 F at noon").

Definition comma_in_name : Net.GeoEntry :=
  {| Net.lat := "1"; Net.lon := "2"; Net.name := "A,B"; Net.country := "C";
     Net.state := None; Net.local_names := None |}.

Definition comma_in_country : Net.GeoEntry :=
  {| Net.lat := "3"; Net.lon := "4"; Net.name := "A"; Net.country := "B,C";
     Net.state := None; Net.local_names := None |}.

(** ** The screens together

    [App] renders the swiper and, in a modal, the menu screen, and each
    of the three keeps its own state. The handlers the menu screen is
    given are closures of [App]: they reach the state of [App] and the
    ref of the list view, not the state of the swiper. *)
Record Screens : Type := {
  ui_app : App.State;
  ui_menu : MenuScreen.State;
  ui_swiper : WeatherSwiper.State
}.

(** A suggestion is pressed: [onPress={() => handleSelectSuggestion(item)}]. *)
Definition press_suggestion (city : MenuScreen.Suggestion) (ui : Screens)
  : Screens * list Cmd :=
  let r := MenuScreen.handleSelectSuggestion city (ui_app ui) (ui_menu ui) in
  ({| ui_app := r.1.1; ui_menu := r.1.2; ui_swiper := ui_swiper ui |}, r.2).

(** The list view reports its viewable pages to the swiper. *)
Definition report_viewable (viewableItems : list ViewToken) (ui : Screens) : Screens :=
  {| ui_app := ui_app ui; ui_menu := ui_menu ui;
     ui_swiper := WeatherSwiper.onViewableItemsChanged viewableItems (ui_swiper ui) |}.

(** Section 4.4 of the specification: navigation to a tracked location
    "sets ActiveIndex to the resolved index directly". *)
Definition select_sets_active_index : Prop :=
  ∀ (ui : Screens) (city : MenuScreen.Suggestion) (i : nat) (c : App.City),
    App.find_ci (MenuScreen.name city +:+ ", " +:+ MenuScreen.country city)
      (App.cities (ui_app ui)) = Some (i, c) →
    WeatherSwiper.activeIndex (ui_swiper (press_suggestion city ui).1) = i.

Definition tokyo_jp : MenuScreen.Suggestion :=
  {| MenuScreen.name := "tokyo"; MenuScreen.country := "JP"; MenuScreen.state := None |}.

(** The menu is open over the first page. *)
Definition menu_over_first_page : Screens :=
  {| ui_app := App.setMenuVisible true (App.initial "en-US");
     ui_menu := MenuScreen.mount 0;
     ui_swiper := {| WeatherSwiper.activeIndex := 0 |} |}.

(* ================================================================== *)
(** * More of the two applications *)

(** ** The footer of the swiper: one dot per city,
    [cities.map((_, index) => <View style={[styles.dot,
       activeIndex === index ? styles.activeDot : styles.inactiveDot]} />)];
    [true] is the active style. *)
Definition paginationDots {A} (cities : list A) (activeIndex : nat) : list bool :=
  imap (λ index _, bool_decide (activeIndex = index)) cities.

Definition activeDots {A} (cities : list A) (activeIndex : nat) : nat :=
  length (filter (λ b, b = true) (paginationDots cities activeIndex)).

(** ** The weather page

    The spinner is on only with the error cleared, and off when no call is
    out. *)
Definition page_settled {Body} (pg : WeatherSwiper.Page Body) : Prop :=
  (WeatherSwiper.loading (WeatherSwiper.st pg) = true
   → WeatherSwiper.error (WeatherSwiper.st pg) = None)
  ∧ (WeatherSwiper.inflight pg = ∅
     → WeatherSwiper.loading (WeatherSwiper.st pg) = false).

(** The name [local_names?.[langCode] || name] gives a candidate, case by
    case: the name [local_names] has of its own under the code when that
    is not empty; what it inherits under the code when it has none of its
    own; the candidate's [name] otherwise. *)
Definition name_shown (g : Net.GeoEntry) (langCode : string)
  (shown : WeatherSwiper.NameValue) : Prop :=
  (∀ names n, Net.local_names g = Some names → names !! langCode = Some n →
     n ≠ EmptyString → shown = WeatherSwiper.NameText n)
  ∧ (∀ names, Net.local_names g = Some names → names !! langCode = None →
       langCode ∈ WeatherSwiper.Object_prototype_keys →
       shown = WeatherSwiper.Inherited langCode)
  ∧ (∀ names, Net.local_names g = Some names →
       names !! langCode = Some EmptyString
       ∨ (names !! langCode = None ∧ langCode ∉ WeatherSwiper.Object_prototype_keys) →
       shown = WeatherSwiper.NameText (Net.name g))
  ∧ (Net.local_names g = None → shown = WeatherSwiper.NameText (Net.name g)).

(** Paris with its French and German names. *)
Definition paris_named : Net.GeoEntry :=
  {| Net.lat := "48.8589"; Net.lon := "2.32"; Net.name := "Paris"; Net.country := "FR";
     Net.state := None;
     Net.local_names := Some {[ "fr" := "Paris"; "el" := "Parisi"; "ru" := EmptyString ]} |}.

(** ** The search box under any timing

    What happens to the menu screen: a text is typed, time passes, the
    reply to a lookup arrives, a suggestion is accepted (with the
    collection as it is then). *)
Inductive MenuEvent : Type :=
| Typed (q : string)
| Waited (dt : nat)
| Replied (reply : Net.Settled (Net.Response Net.GeoBody))
| Accepted (city : MenuScreen.Suggestion) (app : App.State).

Definition menu_step (s : MenuScreen.State) (ev : MenuEvent) : MenuScreen.State :=
  match ev with
  | Typed q => MenuScreen.setSearchInput q s
  | Waited dt => MenuScreen.advance dt s
  | Replied reply => MenuScreen.fetchSuggestions_end reply s
  | Accepted city app => (MenuScreen.handleSelectSuggestion city app s).1.2
  end.

Definition menu_run (evs : list MenuEvent) (s : MenuScreen.State) : MenuScreen.State :=
  fold_left menu_step evs s.

Definition typed_count (evs : list MenuEvent) : nat :=
  sum_list ((λ ev, match ev with Typed _ => 1 | _ => 0 end) <$> evs).

(** A text long enough to be looked up: [searchInput.trim().length > 2]. *)
Definition lookup_worthy (q : string) : Prop := 2 < String.length (Js.trim q).

(** At most one lookup is pending, for the text in the box, and it is the
    one the cleanup clears; the lookups sent were for texts long enough. *)
Definition menu_inv (s : MenuScreen.State) : Prop :=
  (MenuScreen.timers s = []
   ∨ ∃ tm, MenuScreen.timers s = [tm]
       ∧ MenuScreen.cleanup s = Some (MenuScreen.timer_id tm)
       ∧ MenuScreen.query tm = MenuScreen.searchInput s
       ∧ lookup_worthy (MenuScreen.query tm))
  ∧ Forall lookup_worthy (MenuScreen.lookups s).

(** The name and the country a suggestion shows, and the key of its row,
    [key={`${item.name}-${item.country}`}]. *)
Definition shown_pair (sg : MenuScreen.Suggestion) : string * string :=
  (MenuScreen.name sg, MenuScreen.country sg).

Definition rowKey (sg : MenuScreen.Suggestion) : string :=
  MenuScreen.name sg +:+ "-" +:+ MenuScreen.country sg.

Definition no_hyphen_in_country (item : Net.GeoEntry) : Prop :=
  Js.includes "-" (Net.country item) = false.

Definition springfield_twice : list Net.GeoEntry :=
  [ {| Net.lat := "39.8"; Net.lon := "-89.6"; Net.name := "Springfield";
       Net.country := "US"; Net.state := Some "Illinois"; Net.local_names := None |};
    {| Net.lat := "37.2"; Net.lon := "-93.3"; Net.name := "Springfield";
       Net.country := "US"; Net.state := Some "Missouri"; Net.local_names := None |};
    {| Net.lat := "51.5"; Net.lon := "-0.1"; Net.name := "London";
       Net.country := "GB"; Net.state := None; Net.local_names := None |} ].

(** Two results whose names and countries differ and whose rows get the
    same key. *)
Definition hyphen_in_country : list Net.GeoEntry :=
  [ {| Net.lat := "0"; Net.lon := "0"; Net.name := "A-B"; Net.country := "C";
       Net.state := None; Net.local_names := None |};
    {| Net.lat := "0"; Net.lon := "0"; Net.name := "A"; Net.country := "B-C";
       Net.state := None; Net.local_names := None |} ].

(** The identifier a suggestion is added under,
    [`${city.name}, ${city.country}`]. *)
Definition cityIdentifier (city : MenuScreen.Suggestion) : string :=
  MenuScreen.name city +:+ ", " +:+ MenuScreen.country city.

Definition paris_fr : MenuScreen.Suggestion :=
  {| MenuScreen.name := "Paris"; MenuScreen.country := "FR";
     MenuScreen.state := None |}.

Definition padded_name : MenuScreen.Suggestion :=
  {| MenuScreen.name := " Paris"; MenuScreen.country := "FR";
     MenuScreen.state := None |}.

(** ** The settings screen ([SettingsScreen], the same in both
    applications) *)
Module SettingsScreen.

(** [s.startsWith(search)] *)
Definition startsWith (s search : string) : bool := String.prefix search s.

Inductive Button : Type := Fahrenheit | Celsius | EN | ES | ZH.

Global Instance Button_eq_dec : EqDecision Button.
Proof. solve_decision. Defined.

(** The button is drawn in its active style:
    [currentUnits === 'imperial' && styles.toggleButtonActive], ..,
    [currentLocale.startsWith('en') && styles.toggleButtonActive], .. *)
Definition active (currentLocale : string) (currentUnits : UnitSystem) (b : Button) : bool :=
  match b with
  | Fahrenheit => bool_decide (currentUnits = imperial)
  | Celsius => bool_decide (currentUnits = metric)
  | EN => startsWith currentLocale "en"
  | ES => startsWith currentLocale "es"
  | ZH => startsWith currentLocale "zh"
  end.

(** [onPress] of the button, with the handlers [App] passes
    ([onChangeUnits={setUnits}], [onChangeLocale={changeLocale}]). *)
Definition onPress_App (b : Button) (s : App.State) : App.State :=
  match b with
  | Fahrenheit => App.setUnits imperial s
  | Celsius => App.setUnits metric s
  | EN => App.changeLocale "en" s
  | ES => App.changeLocale "es" s
  | ZH => App.changeLocale "zh" s
  end.

(** The same with the handlers [Index] passes. *)
Definition onPress_Index (b : Button) (s : Index.State) : Index.State :=
  match b with
  | Fahrenheit => Index.setUnits imperial s
  | Celsius => Index.setUnits metric s
  | EN => Index.changeLocale "en" s
  | ES => Index.changeLocale "es" s
  | ZH => Index.changeLocale "zh" s
  end.

Definition render_App (s : App.State) (b : Button) : bool :=
  active (App.locale s) (App.units s) b.

Definition render_Index (s : Index.State) (b : Button) : bool :=
  active (Index.locale s) (Index.units s) b.

End SettingsScreen.

(** The buttons of one setting. *)
Definition unitButtons : list SettingsScreen.Button :=
  [SettingsScreen.Fahrenheit; SettingsScreen.Celsius].

Definition languageButtons : list SettingsScreen.Button :=
  [SettingsScreen.EN; SettingsScreen.ES; SettingsScreen.ZH].

Definition sameSetting (b c : SettingsScreen.Button) : bool :=
  bool_decide (b ∈ unitButtons ↔ c ∈ unitButtons).

(** ** A row of the list of tracked locations ([CityListItem]) *)
Module CityListItem.

(** [/data/2.5/weather?q=${city.name}&units=imperial] *)
Record WeatherRequest : Type := { q : string; units : UnitSystem }.

Definition request (city : App.City) : WeatherRequest :=
  {| q := App.name city; units := imperial |}.

Section Row.
(** The body of the endpoint's answer, of type [any] in the source, and
    whether it is truthy. *)
Context {Data : Type} (truthy : Data → bool).

(** [weather] is [None] for the initial [null]. *)
Record RowState : Type := { weather : option Data; loading : bool }.

Definition useState_initial : RowState := {| weather := None; loading := true |}.

Definition setWeather (data : Data) (s : RowState) : RowState :=
  {| weather := Some data; loading := loading s |}.

Definition setLoading (b : bool) (s : RowState) : RowState :=
  {| weather := weather s; loading := b |}.

(** [fetchCityWeather] up to its first [await]. *)
Definition fetchCityWeather_begin (s : RowState) : RowState := setLoading true s.

(** [fetchCityWeather] from the reply on:
    [const data = await response.json(); if (response.ok) setWeather(data);]
    with [catch] that only logs, and [finally { setLoading(false); }]. *)
Definition fetchCityWeather_end (reply : Net.Settled (Net.Response Data))
  (s : RowState) : RowState :=
  match reply with
  | Net.Rejected _ => setLoading false s
  | Net.Resolved response =>
      match Net.json response with
      | Net.Rejected _ => setLoading false s
      | Net.Resolved data =>
          setLoading false (if Net.ok response then setWeather data s else s)
      end
  end.

(** The effect runs at mount and when [city] changes. *)
Definition mount : RowState := fetchCityWeather_begin useState_initial.

Inductive Event : Type :=
| CityChanged
| Answered (reply : Net.Settled (Net.Response Data)).

Definition step (s : RowState) (ev : Event) : RowState :=
  match ev with
  | CityChanged => fetchCityWeather_begin s
  | Answered reply => fetchCityWeather_end reply s
  end.

Definition run (evs : list Event) (s : RowState) : RowState := fold_left step evs s.

(** [loading || !weather ? <ActivityIndicator/> : (<>..weather..</>)]:
    [None] is the spinner, [Some w] the weather drawn. *)
Definition render (s : RowState) : option Data :=
  match weather s with
  | Some w => if loading s || negb (truthy w) then None else Some w
  | None => None
  end.

End Row.
End CityListItem.

(** A row whose second lookup fails after the first succeeded; the body is
    the temperature alone. *)
Definition warm_answer : Net.Response nat :=
  {| Net.ok := true; Net.json := Net.Resolved 72 |}.

Definition row_events : list (CityListItem.Event (Data := nat)) :=
  [ CityListItem.Answered (Net.Resolved warm_answer);
    CityListItem.CityChanged;
    CityListItem.Answered (Net.Rejected (Net.JsError "Network request failed")) ].
(* ================================================================== *)
(** * Properties *)

(** ** Strings *)

Example trim_london : Js.trim "  london, gb " = "london, gb".
Proof. reflexivity. Qed.

Example trim_inner_space : Js.trim (String "009" " New  York ") = "New  York".
Proof. reflexivity. Qed.

Example toLowerCase_London : Js.toLowerCase "London, GB" = "london, gb".
Proof. reflexivity. Qed.

Example split_first_locale :
  Js.split_first "-" "zh-Hant-TW" = "zh" ∧ Js.split_first "-" "en" = "en".
Proof. split; reflexivity. Qed.

Lemma toLowerCase_empty s : Js.toLowerCase s = EmptyString ↔ s = EmptyString.
Proof. destruct s; simpl; split; congruence. Qed.

Lemma truthy_true s : Js.truthy s = true ↔ s ≠ EmptyString.
Proof. destruct s; simpl; split; congruence. Qed.

Lemma truthy_false s : Js.truthy s = false ↔ s = EmptyString.
Proof. destruct s; simpl; split; congruence. Qed.

(** ** Lists *)

Lemma filter_with_index_delete {A} (k i : nat) (xs : list A) :
  filter_with_index (λ _ index, negb (Nat.eqb index (k + i))) k xs = delete i xs.
Proof.
  revert k i. induction xs as [|x r IH]; intros k i; [by destruct i|].
  simpl. destruct i as [|i].
  - rewrite Nat.add_0_r, Nat.eqb_refl. simpl.
    clear IH. generalize (S k) (Nat.lt_succ_diag_r k).
    induction r as [|y r IH]; intros m Hm; [done|].
    simpl. destruct (Nat.eqb_spec m k); [lia|]. simpl.
    f_equal. apply IH. lia.
  - destruct (Nat.eqb_spec k (k + S i)); [lia|]. simpl. f_equal.
    replace (k + S i) with (S k + i) by lia. apply IH.
Qed.

Lemma delete_length_le {A} (i : nat) (xs : list A) :
  length xs ≤ S (length (delete i xs)).
Proof. rewrite delete_take_drop, length_app, length_take, length_drop. lia. Qed.

Lemma Forall_sublist_of {A} (P : A → Prop) (l k : list A) :
  l `sublist_of` k → Forall P k → Forall P l.
Proof.
  induction 1 as [|x l k _ IH|x l k _ IH]; [done| |];
    rewrite !Forall_cons; intros [? ?]; auto.
Qed.

Lemma delete_sublist_of {A} (i : nat) (xs : list A) : delete i xs `sublist_of` xs.
Proof.
  revert i. induction xs as [|x r IH]; intros [|i]; simpl;
    [constructor|constructor|by apply sublist_cons|by apply sublist_skip].
Qed.

Lemma filter_ne_length {A B} `{EqDecision B} (f : A → B) (b : B) (xs : list A) :
  NoDup (f <$> xs) →
  length xs ≤ S (length (filter (λ x, f x ≠ b) xs)).
Proof.
  induction xs as [|x r IH]; simpl; [lia|].
  rewrite NoDup_cons. intros [Hx Hr].
  rewrite filter_cons. destruct (decide (f x ≠ b)) as [Hne|Heq]; simpl.
  - specialize (IH Hr). lia.
  - apply dec_stable in Heq. subst b.
    assert (filter (λ y, f y ≠ f x) r = r) as ->; [|lia].
    clear IH Hr. induction r as [|y r IH]; [done|].
    rewrite filter_cons. rewrite fmap_cons, not_elem_of_cons in Hx.
    destruct Hx as [Hxy Hx].
    destruct (decide (f y ≠ f x)) as [_|Hn]; [|by destruct Hn].
    f_equal. by apply IH.
Qed.

(** ** The location collection *)

Section AppCollection.
Import App.

Lemma App_addCity_empty x s : Js.trim x = EmptyString → addCity x s = (s, []).
Proof. unfold addCity. by intros ->. Qed.

Lemma App_addCity_exists x s c :
  c ∈ cities s → Js.toLowerCase (id c) = Js.toLowerCase (Js.trim x) →
  Js.trim x ≠ EmptyString → addCity x s = (s, cityExists (Js.trim x)).
Proof.
  intros Hc Heq Hne. unfold addCity.
  apply truthy_true in Hne. rewrite Hne. simpl.
  rewrite bool_decide_eq_true_2; [done|].
  by apply (list_find_elem_of _ _ c).
Qed.

Lemma App_addCity_fresh x s :
  Js.trim x ≠ EmptyString →
  Forall (λ c, Js.toLowerCase (id c) ≠ Js.toLowerCase (Js.trim x)) (cities s) →
  addCity x s =
    (setCities (cities s ++ [ {| id := Js.trim x; name := Js.trim x |} ]) s,
     added 300).
Proof.
  intros Hne Hall. unfold addCity.
  apply truthy_true in Hne. rewrite Hne. simpl.
  rewrite bool_decide_eq_false_2; [done|].
  assert (find_ci (Js.trim x) (cities s) = None) as ->
    by (by apply list_find_None).
  by intros [? ?].
Qed.

(** The three ways out of [addCity]. *)
Lemma App_addCity_cases x s :
  (Js.trim x = EmptyString ∧ addCity x s = (s, []))
  ∨ (Js.trim x ≠ EmptyString
     ∧ (∃ c, c ∈ cities s ∧ Js.toLowerCase (id c) = Js.toLowerCase (Js.trim x))
     ∧ addCity x s = (s, cityExists (Js.trim x)))
  ∨ (Js.trim x ≠ EmptyString
     ∧ Forall (λ c, Js.toLowerCase (id c) ≠ Js.toLowerCase (Js.trim x)) (cities s)
     ∧ addCity x s =
         (setCities (cities s ++ [ {| id := Js.trim x; name := Js.trim x |} ]) s,
          [LayoutAnimation_configureNext; Keyboard_dismiss; setTimeout_scrollToEnd 300])).
Proof.
  destruct (decide (Js.trim x = EmptyString)) as [He|Hne].
  { left. split; [done|]. by apply App_addCity_empty. }
  right.
  destruct (find_ci (Js.trim x) (cities s)) as [[i c]|] eqn:Hf.
  - left. apply list_find_Some in Hf as (Hi & Hc & _).
    apply list_elem_of_lookup_2 in Hi.
    split; [done|]. split; [by exists c|]. by apply (App_addCity_exists _ _ c).
  - right. apply list_find_None in Hf.
    split; [done|]. split; [done|]. by apply App_addCity_fresh.
Qed.

Lemma App_deleteCity_last x s :
  length (cities s) ≤ 1 → deleteCity x s = (s, cannotDelete).
Proof.
  intros H. unfold deleteCity. by rewrite (proj2 (Nat.leb_le _ _) H).
Qed.

Lemma App_deleteCity_many x s :
  1 < length (cities s) →
  deleteCity x s =
    (setCities (filter (λ city, id city ≠ x) (cities s)) s,
     [LayoutAnimation_configureNext]).
Proof.
  intros H. unfold deleteCity.
  destruct (Nat.leb_spec (length (cities s)) 1); [lia|done].
Qed.

Lemma App_wf_step s op : App_wf s → App_wf (app_step s op).
Proof.
  intros [Hlen Hnd]. destruct op as [x|x]; simpl.
  - destruct (App_addCity_cases x s) as [[_ ->]|[(_ & _ & ->)|(_ & Hall & ->)]];
      [done|done|].
    split; simpl; [rewrite length_app; lia|].
    rewrite fmap_app. apply NoDup_app. split; [done|].
    split; [|apply NoDup_singleton].
    intros i Hi Hi'. apply list_elem_of_singleton in Hi'. subst i.
    apply list_elem_of_fmap in Hi as (c & Hc & Hin).
    rewrite Forall_forall in Hall. apply (Hall c Hin).
    simpl in Hc. by rewrite <- Hc.
  - destruct (Nat.le_gt_cases (length (cities s)) 1) as [H1|H1].
    + by rewrite App_deleteCity_last.
    + rewrite App_deleteCity_many by done. split; simpl.
      * pose proof (filter_ne_length id x (cities s) Hnd). lia.
      * apply (sublist_NoDup _ _ Hnd), fmap_sublist, sublist_filter.
Qed.

Lemma App_wf_run ops s : App_wf s → App_wf (app_run ops s).
Proof.
  revert s. induction ops as [|op ops IH]; intros s Hs; [done|].
  simpl. apply IH. by apply App_wf_step.
Qed.

End AppCollection.

Section IndexCollection.
Import Index.

Lemma Index_addCity_empty x s : Js.trim x = EmptyString → addCity x s = (s, []).
Proof. unfold addCity. by intros ->. Qed.

Lemma Index_addCity_exists x s c :
  c ∈ cities s → Js.toLowerCase c = Js.toLowerCase (Js.trim x) →
  Js.trim x ≠ EmptyString → addCity x s = (s, cityExists (Js.trim x)).
Proof.
  intros Hc Heq Hne. unfold addCity.
  apply truthy_true in Hne. rewrite Hne. simpl.
  rewrite bool_decide_eq_true_2; [done|].
  by apply (list_find_elem_of _ _ c).
Qed.

Lemma Index_addCity_fresh x s :
  Js.trim x ≠ EmptyString →
  Forall (λ c, Js.toLowerCase c ≠ Js.toLowerCase (Js.trim x)) (cities s) →
  addCity x s = (setCities (cities s ++ [Js.trim x]) s, added 500).
Proof.
  intros Hne Hall. unfold addCity.
  apply truthy_true in Hne. rewrite Hne. simpl.
  rewrite bool_decide_eq_false_2; [done|].
  assert (list_find (λ c, Js.toLowerCase c = Js.toLowerCase (Js.trim x))
            (cities s) = None) as -> by (by apply list_find_None).
  by intros [? ?].
Qed.

Lemma Index_addCity_cases x s :
  (Js.trim x = EmptyString ∧ addCity x s = (s, []))
  ∨ (Js.trim x ≠ EmptyString
     ∧ (∃ c, c ∈ cities s ∧ Js.toLowerCase c = Js.toLowerCase (Js.trim x))
     ∧ addCity x s = (s, cityExists (Js.trim x)))
  ∨ (Js.trim x ≠ EmptyString
     ∧ Forall (λ c, Js.toLowerCase c ≠ Js.toLowerCase (Js.trim x)) (cities s)
     ∧ addCity x s = (setCities (cities s ++ [Js.trim x]) s, added 500)).
Proof.
  destruct (decide (Js.trim x = EmptyString)) as [He|Hne].
  { left. split; [done|]. by apply Index_addCity_empty. }
  right.
  destruct (list_find (λ c, Js.toLowerCase c = Js.toLowerCase (Js.trim x))
              (cities s)) as [[i c]|] eqn:Hf.
  - left. apply list_find_Some in Hf as (Hi & Hc & _).
    apply list_elem_of_lookup_2 in Hi.
    split; [done|]. split; [by exists c|]. by apply (Index_addCity_exists _ _ c).
  - right. apply list_find_None in Hf.
    split; [done|]. split; [done|]. by apply Index_addCity_fresh.
Qed.

Lemma Index_deleteCity_last i s :
  length (cities s) ≤ 1 → deleteCity i s = (s, cannotDelete).
Proof.
  intros H. unfold deleteCity. by rewrite (proj2 (Nat.leb_le _ _) H).
Qed.

(** Filtering on the position is the removal of that position. *)
Lemma Index_deleteCity_many i s :
  1 < length (cities s) →
  deleteCity i s = (setCities (delete i (cities s)) s, [LayoutAnimation_configureNext]).
Proof.
  intros H. unfold deleteCity.
  destruct (Nat.leb_spec (length (cities s)) 1); [lia|].
  by rewrite (filter_with_index_delete 0 i).
Qed.

Lemma Index_wf_step s op : Index_wf s → Index_wf (index_step s op).
Proof.
  unfold Index_wf. intros Hlen. destruct op as [x|i]; simpl.
  - destruct (Index_addCity_cases x s) as [[_ ->]|[(_ & _ & ->)|(_ & _ & ->)]];
      [done|done|].
    simpl. rewrite length_app. lia.
  - destruct (Nat.le_gt_cases (length (cities s)) 1) as [H1|H1].
    + by rewrite Index_deleteCity_last.
    + rewrite Index_deleteCity_many by done. simpl.
      pose proof (delete_length_le i (cities s)). lia.
Qed.

Lemma Index_wf_run ops s : Index_wf s → Index_wf (index_run ops s).
Proof.
  revert s. induction ops as [|op ops IH]; intros s Hs; [done|].
  simpl. apply IH. by apply Index_wf_step.
Qed.

End IndexCollection.

(** The ids of a collection never include the empty string: the initial
    ones are not empty and [addCity] appends a truthy id only. *)
Lemma App_ids_nonempty_step s op :
  Forall (λ i, i ≠ EmptyString) (App_ids s) → Forall (λ i, i ≠ EmptyString) (App_ids (app_step s op)).
Proof.
  unfold App_ids. intros H. destruct op as [x|x]; simpl.
  - destruct (App_addCity_cases x s) as [[_ ->]|[(_ & _ & ->)|(Hne & _ & ->)]];
      [done|done|].
    simpl. rewrite fmap_app. apply Forall_app. split; [done|].
    by apply Forall_singleton.
  - destruct (Nat.le_gt_cases (length (App.cities s)) 1) as [H1|H1].
    + by rewrite App_deleteCity_last.
    + rewrite App_deleteCity_many by done. simpl.
      eapply Forall_sublist_of; [|exact H].
      apply fmap_sublist, sublist_filter.
Qed.

Lemma App_ids_nonempty_reachable l ops :
  Forall (λ i, i ≠ EmptyString) (App_ids (app_run ops (App.initial l))).
Proof.
  assert (Forall (λ i, i ≠ EmptyString) (App_ids (App.initial l))) as H0
    by (repeat constructor; discriminate).
  revert H0. generalize (App.initial l).
  induction ops as [|op ops IH]; intros s Hs; [done|].
  simpl. apply IH. by apply App_ids_nonempty_step.
Qed.

Lemma Index_ids_nonempty_step s op :
  Forall (λ i, i ≠ EmptyString) (Index_ids s) → Forall (λ i, i ≠ EmptyString) (Index_ids (index_step s op)).
Proof.
  unfold Index_ids. intros H. destruct op as [x|i]; simpl.
  - destruct (Index_addCity_cases x s) as [[_ ->]|[(_ & _ & ->)|(Hne & _ & ->)]];
      [done|done|].
    simpl. apply Forall_app. split; [done|]. by apply Forall_singleton.
  - destruct (Nat.le_gt_cases (length (Index.cities s)) 1) as [H1|H1].
    + by rewrite Index_deleteCity_last.
    + rewrite Index_deleteCity_many by done. simpl.
      eapply Forall_sublist_of; [|exact H]. apply delete_sublist_of.
Qed.

Lemma Index_ids_nonempty_reachable l ops :
  Forall (λ i, i ≠ EmptyString) (Index_ids (index_run ops (Index.initial l))).
Proof.
  assert (Forall (λ i, i ≠ EmptyString) (Index_ids (Index.initial l))) as H0
    by (repeat constructor; discriminate).
  revert H0. generalize (Index.initial l).
  induction ops as [|op ops IH]; intros s Hs; [done|].
  simpl. apply IH. by apply Index_ids_nonempty_step.
Qed.

Lemma ci_member_Forall x ids :
  ¬ ci_member x ids ↔ Forall (λ i, Js.toLowerCase i ≠ Js.toLowerCase x) ids.
Proof.
  unfold ci_member. rewrite Forall_forall. split.
  - intros H i Hi Heq. apply H. by exists i.
  - intros H (i & Hi & Heq). by apply (H i).
Qed.

Lemma ci_member_nonempty x ids :
  Forall (λ i, i ≠ EmptyString) ids → ci_member x ids → x ≠ EmptyString.
Proof.
  rewrite Forall_forall. intros H (i & Hi & Heq) ->.
  apply (H i Hi). by apply toLowerCase_empty.
Qed.

Lemma ci_unique_snoc x ids :
  ci_unique ids → ¬ ci_member x ids → ci_unique (ids ++ [x]).
Proof.
  unfold ci_unique. intros Hnd Hx. rewrite fmap_app. apply NoDup_app.
  split; [done|]. split; [|apply NoDup_singleton].
  intros l Hl Hl'. apply list_elem_of_singleton in Hl'. subst l.
  apply list_elem_of_fmap in Hl as (i & Hi & Hin). apply Hx. by exists i.
Qed.

(** C1: along every sequence of add and delete operations started from a
    non-empty collection (with the pairwise different ids a collection
    has), the collection keeps at least one location; and [deleteCity] on a
    collection of exactly one location raises the "Cannot Delete" notice
    (the spec's [LastLocation]) and returns the state as it was. Both for
    [App] (delete by id) and for [Index] (delete by position). *)
Theorem collection_keeps_one_location
  (s : App.State) (t : Index.State) (opsA : list AppOp) (opsI : list IndexOp)
  (Hs : App.cities s ≠ []) (Hids : NoDup (App_ids s))
  (Ht : Index.cities t ≠ []) :
  1 ≤ length (App.cities (app_run opsA s))
  ∧ 1 ≤ length (Index.cities (index_run opsI t))
  ∧ (length (App.cities s) = 1 →
     ∀ idToDelete, App.deleteCity idToDelete s = (s, cannotDelete))
  ∧ (length (Index.cities t) = 1 →
     ∀ indexToDelete, Index.deleteCity indexToDelete t = (t, cannotDelete)).
Proof.
  assert (App_wf s) as Hwf.
  { split; [|done]. destruct (App.cities s); [done|simpl; lia]. }
  assert (Index_wf t) as Hwt.
  { unfold Index_wf. destruct (Index.cities t); [done|simpl; lia]. }
  split; [apply (App_wf_run opsA s Hwf)|].
  split; [apply (Index_wf_run opsI t Hwt)|].
  split; intros H1 x.
  - apply App_deleteCity_last. lia.
  - apply Index_deleteCity_last. lia.
Qed.

Lemma collection_keeps_one_location_witness :
  1 ≤ length (App.cities
        (app_run [AppDelete "Tokyo, JP"; AppAdd " Paris, FR "; AppDelete "Tokyo, JP";
                  AppDelete "Paris, FR"] only_tokyo))
  ∧ 1 ≤ length (Index.cities
          (index_run [IndexDelete 0; IndexAdd "Oslo"; IndexDelete 0; IndexDelete 0]
             only_tokyo_index))
  ∧ App.deleteCity "Tokyo, JP" only_tokyo = (only_tokyo, cannotDelete)
  ∧ Index.deleteCity 0 only_tokyo_index = (only_tokyo_index, cannotDelete).
Proof.
  destruct (collection_keeps_one_location only_tokyo only_tokyo_index
              [AppDelete "Tokyo, JP"; AppAdd " Paris, FR "; AppDelete "Tokyo, JP";
               AppDelete "Paris, FR"]
              [IndexDelete 0; IndexAdd "Oslo"; IndexDelete 0; IndexDelete 0])
    as (HA & HI & HdA & HdI).
  - discriminate.
  - apply NoDup_singleton.
  - discriminate.
  - split; [exact HA|]. split; [exact HI|]. split; [by apply HdA|by apply HdI].
Defined.

(** Adding again under the same normalized id: nothing is appended, and
    the "City Exists" notice is raised unless the id is blank. *)
Lemma App_addCity_twice s x y :
  Js.toLowerCase (Js.trim y) = Js.toLowerCase (Js.trim x) →
  App.addCity y (fst (App.addCity x s))
  = (fst (App.addCity x s),
     if Js.truthy (Js.trim y) then cityExists (Js.trim y) else []).
Proof.
  intros Hxy.
  destruct (decide (Js.trim y = EmptyString)) as [Hy|Hy].
  { rewrite Hy. simpl. by apply App_addCity_empty. }
  rewrite (proj2 (truthy_true _) Hy).
  assert (Js.trim x ≠ EmptyString) as Hx.
  { intros Hx. rewrite Hx in Hxy. simpl in Hxy.
    by apply (proj1 (toLowerCase_empty _)) in Hxy. }
  destruct (App_addCity_cases x s) as [[? _]|[(_ & (c & Hc & Heq) & ->)|(_ & _ & ->)]];
    [done| |]; simpl.
  - apply (App_addCity_exists _ _ c); [done|congruence|done].
  - apply (App_addCity_exists _ _ {| App.id := Js.trim x; App.name := Js.trim x |});
      [|done|done].
    simpl. apply elem_of_app. right. by apply list_elem_of_singleton.
Qed.

Lemma Index_addCity_twice s x y :
  Js.toLowerCase (Js.trim y) = Js.toLowerCase (Js.trim x) →
  Index.addCity y (fst (Index.addCity x s))
  = (fst (Index.addCity x s),
     if Js.truthy (Js.trim y) then cityExists (Js.trim y) else []).
Proof.
  intros Hxy.
  destruct (decide (Js.trim y = EmptyString)) as [Hy|Hy].
  { rewrite Hy. simpl. by apply Index_addCity_empty. }
  rewrite (proj2 (truthy_true _) Hy).
  assert (Js.trim x ≠ EmptyString) as Hx.
  { intros Hx. rewrite Hx in Hxy. simpl in Hxy.
    by apply (proj1 (toLowerCase_empty _)) in Hxy. }
  destruct (Index_addCity_cases x s) as [[? _]|[(_ & (c & Hc & Heq) & ->)|(_ & _ & ->)]];
    [done| |]; simpl.
  - apply (Index_addCity_exists _ _ c); [done|congruence|done].
  - apply (Index_addCity_exists _ _ (Js.trim x)); [|done|done].
    simpl. apply elem_of_app. right. by apply list_elem_of_singleton.
Qed.

Lemma App_addCity_ci_unique s x :
  ci_unique (App_ids s) → ci_unique (App_ids (fst (App.addCity x s))).
Proof.
  intros H.
  destruct (App_addCity_cases x s) as [[_ ->]|[(_ & _ & ->)|(_ & Hall & ->)]];
    [done|done|].
  unfold App_ids. simpl. rewrite fmap_app. apply ci_unique_snoc; [done|].
  apply ci_member_Forall.
  by apply (proj2 (Forall_fmap App.id _ (App.cities s))).
Qed.

Lemma Index_addCity_ci_unique s x :
  ci_unique (Index_ids s) → ci_unique (Index_ids (fst (Index.addCity x s))).
Proof.
  intros H.
  destruct (Index_addCity_cases x s) as [[_ ->]|[(_ & _ & ->)|(_ & Hall & ->)]];
    [done|done|].
  unfold Index_ids. simpl. apply ci_unique_snoc; [done|].
  by apply ci_member_Forall.
Qed.

(** C2: in every collection state (whose ids are not empty, as the ids of
    a collection are), [addCity x] when an existing id equals the trimmed
    [x] up to case raises the "City Exists" notice (the spec's
    [AlreadyExists]) and returns the state as it was; [addCity x] followed
    by [addCity y] with the same normalized id appends nothing the second
    time, raises the notice there when the id is not blank, and leaves the
    ids different up to case; and when the trimmed [x] is not blank and
    matches no id, [addCity] appends exactly the one location whose id is
    the trimmed [x]. Both for [App] and for [Index]. *)
Theorem add_existing_id_is_rejected
  (s : App.State) (t : Index.State) (x y : string)
  (Hs : Forall (λ i, i ≠ EmptyString) (App_ids s))
  (Ht : Forall (λ i, i ≠ EmptyString) (Index_ids t))
  (Hxy : Js.toLowerCase (Js.trim y) = Js.toLowerCase (Js.trim x)) :
  (ci_member (Js.trim x) (App_ids s) →
     App.addCity x s = (s, cityExists (Js.trim x)))
  ∧ (ci_member (Js.trim x) (Index_ids t) →
     Index.addCity x t = (t, cityExists (Js.trim x)))
  ∧ (fst (App.addCity y (fst (App.addCity x s))) = fst (App.addCity x s)
     ∧ (Js.trim y ≠ EmptyString →
        snd (App.addCity y (fst (App.addCity x s))) = cityExists (Js.trim y))
     ∧ (ci_unique (App_ids s) →
        ci_unique (App_ids (fst (App.addCity y (fst (App.addCity x s)))))))
  ∧ (fst (Index.addCity y (fst (Index.addCity x t))) = fst (Index.addCity x t)
     ∧ (Js.trim y ≠ EmptyString →
        snd (Index.addCity y (fst (Index.addCity x t))) = cityExists (Js.trim y))
     ∧ (ci_unique (Index_ids t) →
        ci_unique (Index_ids (fst (Index.addCity y (fst (Index.addCity x t)))))))
  ∧ (Js.trim x ≠ EmptyString → ¬ ci_member (Js.trim x) (App_ids s) →
     App.addCity x s
     = (App.setCities
          (App.cities s ++ [ {| App.id := Js.trim x; App.name := Js.trim x |} ]) s,
        added 300))
  ∧ (Js.trim x ≠ EmptyString → ¬ ci_member (Js.trim x) (Index_ids t) →
     Index.addCity x t
     = (Index.setCities (Index.cities t ++ [Js.trim x]) t, added 500)).
Proof.
  split; [|split; [|split; [|split; [|split]]]].
  - intros Hm. pose proof (ci_member_nonempty _ _ Hs Hm) as Hne.
    destruct Hm as (i & Hi & Heq).
    apply list_elem_of_fmap in Hi as (c & -> & Hc).
    by apply (App_addCity_exists _ _ c).
  - intros Hm. pose proof (ci_member_nonempty _ _ Ht Hm) as Hne.
    destruct Hm as (c & Hc & Heq).
    by apply (Index_addCity_exists _ _ c).
  - rewrite (App_addCity_twice s x y Hxy). simpl.
    split; [done|]. split.
    + intros Hy. by rewrite (proj2 (truthy_true _) Hy).
    + apply App_addCity_ci_unique.
  - rewrite (Index_addCity_twice t x y Hxy). simpl.
    split; [done|]. split.
    + intros Hy. by rewrite (proj2 (truthy_true _) Hy).
    + apply Index_addCity_ci_unique.
  - intros Hne Hm. apply App_addCity_fresh; [done|].
    apply ci_member_Forall in Hm.
    apply (proj1 (Forall_fmap App.id _ (App.cities s))) in Hm. exact Hm.
  - intros Hne Hm. apply Index_addCity_fresh; [done|].
    by apply ci_member_Forall in Hm.
Qed.

Lemma add_existing_id_is_rejected_witness :
  App.addCity "  london, gb " (App.initial "en-US")
  = (App.initial "en-US", cityExists "london, gb")
  ∧ Index.addCity "  london " (Index.initial "en-US")
    = (Index.initial "en-US", cityExists "london")
  ∧ fst (App.addCity " LONDON, GB" (fst (App.addCity "  london, gb " (App.initial "en-US"))))
    = fst (App.addCity "  london, gb " (App.initial "en-US")).
Proof.
  assert (Forall (λ i, i ≠ EmptyString) (App_ids (App.initial "en-US"))) as Hs
    by (repeat constructor; discriminate).
  assert (Forall (λ i, i ≠ EmptyString) (Index_ids (Index.initial "en-US"))) as Ht
    by (repeat constructor; discriminate).
  split; [|split].
  - apply (proj1 (add_existing_id_is_rejected (App.initial "en-US") (Index.initial "en-US")
                    "  london, gb " " LONDON, GB" Hs Ht eq_refl)).
    exists "London, GB". split; [|reflexivity].
    apply list_elem_of_In. simpl. tauto.
  - apply (proj1 (proj2 (add_existing_id_is_rejected (App.initial "en-US")
                           (Index.initial "en-US") "  london " " LONDON"
                           Hs Ht eq_refl))).
    exists "London". split; [|reflexivity].
    apply list_elem_of_In. simpl. tauto.
  - apply (proj1 (proj2 (proj2 (add_existing_id_is_rejected (App.initial "en-US")
                                  (Index.initial "en-US") "  london, gb "
                                  " LONDON, GB" Hs Ht eq_refl)))).
Defined.

(** C10: [addCity] with an identifier that trims to the empty string does
    nothing: the state (hence the collection) is returned as it was and no
    command is issued, neither the "City Exists" notice nor any other.
    Both for [App] and for [Index]. *)
Theorem add_blank_is_silent
  (s : App.State) (t : Index.State) (x : string) (Hx : Js.trim x = EmptyString) :
  App.addCity x s = (s, []) ∧ Index.addCity x t = (t, []).
Proof.
  split; [by apply App_addCity_empty|by apply Index_addCity_empty].
Qed.

Lemma add_blank_is_silent_witness :
  App.addCity "   " (App.initial "en-US") = (App.initial "en-US", [])
  ∧ Index.addCity "   " (Index.initial "en-US") = (Index.initial "en-US", []).
Proof. apply (add_blank_is_silent _ _ "   "). reflexivity. Defined.

(** ** The weather page *)

Section PageProofs.
Import Net WeatherSwiper.
Context {Body : Type}.
Implicit Types (p : Props) (net : Network Body) (s : PageState Body).

Lemma error_kind_catch_message err : error_kind (catch_message err) = NetworkError.
Proof. by destruct err. Qed.

Lemma fetchWeather_end_begin_error p net s :
  error (fetchWeather_end (fetchWeather_try p net) (fetchWeather_begin s))
  = match fetchWeather_try p net with inl _ => None | inr message => Some message end.
Proof. by destruct (fetchWeather_try p net). Qed.

Lemma failed_with_iff k p net s :
  failed_with k (fetchWeather_end (fetchWeather_try p net) (fetchWeather_begin s))
  ↔ ∃ message, fetchWeather_try p net = inr message ∧ error_kind message = k.
Proof.
  unfold failed_with. rewrite fetchWeather_end_begin_error.
  destruct (fetchWeather_try p net) as [d|m].
  - split; intros (x & H & _); discriminate H.
  - split; intros (x & Hx & Hk); injection Hx as Hx; subst; eauto.
Qed.

(** What the network did decides how [fetchWeather] ends. *)
Lemma geocoding_fails_try p net :
  geocoding_fails p net →
  fetchWeather_try p net
  = inr (Tr "errorCityNotFound" [("city", App.name (city p))]).
Proof.
  intros (r & data & Hr & Hj & Hor). unfold fetchWeather_try. rewrite Hr, Hj.
  destruct Hor as [Hok| ->]; [by rewrite Hok|]. by destruct (ok r).
Qed.

Lemma geocoded_try p net g :
  geocoded p net g →
  fetchWeather_try p net
  = match onecall net (onecall_request p g) with
    | Rejected err => inr (catch_message err)
    | Resolved weatherResponse =>
        if negb (ok weatherResponse) then inr (Tr "errorApiKey" [])
        else
          match json weatherResponse with
          | Rejected err => inr (catch_message err)
          | Resolved fetchedWeatherData =>
              inl {| wd_name := displayName g (Js.split_first "-" (lang p));
                     wd_country := country g;
                     wd_body := fetchedWeatherData |}
          end
    end.
Proof.
  intros (r & rest & Hr & Hj & Hok). unfold fetchWeather_try.
  by rewrite Hr, Hj, Hok.
Qed.

Lemma weather_not_ok_try p net :
  weather_not_ok p net → fetchWeather_try p net = inr (Tr "errorApiKey" []).
Proof.
  intros (g & w & Hg & Hw & Hok). rewrite (geocoded_try p net g Hg), Hw.
  by rewrite Hok.
Qed.

Lemma thrown_into_catch_try p net message :
  thrown_into_catch p net message →
  fetchWeather_try p net = inr message ∧ error_kind message = NetworkError.
Proof.
  intros [(err & Hr & ->)|[(r & err & Hr & Hj & ->)
         |[(r & data & site & Hr & Hok & Hj & Hmal & ->)|(g & Hg & Hw)]]].
  - unfold fetchWeather_try. rewrite Hr. by rewrite error_kind_catch_message.
  - unfold fetchWeather_try. rewrite Hr, Hj. by rewrite error_kind_catch_message.
  - unfold fetchWeather_try. rewrite Hr, Hj, Hok. split; [|done].
    destruct data as [|[|[e|] rest]|]; simpl in *; by try injection Hmal as <-.
  - rewrite (geocoded_try p net g Hg).
    destruct Hw as [(err & Hw & ->)|(w & err & Hw & Hok & Hj & ->)]; rewrite Hw.
    + by rewrite error_kind_catch_message.
    + rewrite Hok, Hj. by rewrite error_kind_catch_message.
Qed.

(** The four ways through [fetchWeather], each with what the network did. *)
Lemma fetchWeather_try_cases p net :
  (geocoding_fails p net
   ∧ fetchWeather_try p net
     = inr (Tr "errorCityNotFound" [("city", App.name (city p))]))
  ∨ (weather_not_ok p net ∧ fetchWeather_try p net = inr (Tr "errorApiKey" []))
  ∨ (∃ message, thrown_into_catch p net message
                ∧ fetchWeather_try p net = inr message)
  ∨ (∃ g weatherResponse body,
       geocoded p net g
       ∧ onecall net (onecall_request p g) = Resolved weatherResponse
       ∧ ok weatherResponse = true
       ∧ json weatherResponse = Resolved body
       ∧ fetchWeather_try p net
         = inl {| wd_name := displayName g (Js.split_first "-" (lang p));
                  wd_country := country g; wd_body := body |}).
Proof.
  assert (∀ message, thrown_into_catch p net message →
            ∃ message, thrown_into_catch p net message
                       ∧ fetchWeather_try p net = inr message) as Hthrown.
  { intros m Hm. exists m. split; [done|]. by apply thrown_into_catch_try. }
  destruct (geo_direct net (geo_request p)) as [geoResponse|err] eqn:Hgeo.
  2:{ right; right; left. apply (Hthrown (catch_message err)). left. by exists err. }
  destruct (json geoResponse) as [geoData|err] eqn:Hjson.
  2:{ right; right; left. apply (Hthrown (catch_message err)).
      right; left. by exists geoResponse, err. }
  destruct (ok geoResponse) eqn:Hok.
  2:{ left. assert (geocoding_fails p net) as Hf
        by (exists geoResponse, geoData; auto).
      split; [done|]. by apply geocoding_fails_try. }
  destruct (malformed geoData) as [site|] eqn:Hmal.
  { right; right; left. apply (Hthrown (TypeErrorMessage site)).
    right; right; left. by exists geoResponse, geoData, site. }
  destruct geoData as [|[|[g|] rest]|]; try discriminate Hmal.
  { left. assert (geocoding_fails p net) as Hf
      by (exists geoResponse, (GeoArray []); auto).
    split; [done|]. by apply geocoding_fails_try. }
  assert (geocoded p net g) as Hg by (by exists geoResponse, rest).
  right. rewrite (geocoded_try p net g Hg).
  destruct (onecall net (onecall_request p g)) as [weatherResponse|err] eqn:Hw.
  2:{ right; left. exists (catch_message err). split; [|done].
      right; right; right. exists g. split; [done|]. left. by exists err. }
  destruct (ok weatherResponse) eqn:Hwok; simpl.
  2:{ left. split; [|done]. by exists g, weatherResponse. }
  right.
  destruct (json weatherResponse) as [body|err] eqn:Hwj.
  - right. by exists g, weatherResponse, body.
  - left. exists (catch_message err). split; [|done].
    right; right; right. exists g. split; [done|]. right.
    by exists weatherResponse, err.
Qed.

Lemma geocoded_unique p net g g' : geocoded p net g → geocoded p net g' → g = g'.
Proof.
  intros (r & rest & Hr & Hj & _) (r' & rest' & Hr' & Hj' & _).
  rewrite Hr in Hr'. injection Hr' as <-. rewrite Hj in Hj'. by injection Hj'.
Qed.

(** A failure is of one kind, and the kind tells what the network did. *)
Lemma fetchWeather_try_kind p net message :
  fetchWeather_try p net = inr message →
  (error_kind message = CityNotFound ↔ geocoding_fails p net)
  ∧ (error_kind message = UpstreamError ↔ weather_not_ok p net)
  ∧ (error_kind message = NetworkError ↔ thrown_into_catch p net message).
Proof.
  intros Hm.
  assert (geocoding_fails p net → error_kind message = CityNotFound) as H1.
  { intros Hf. rewrite (geocoding_fails_try p net Hf) in Hm. by injection Hm as <-. }
  assert (weather_not_ok p net → error_kind message = UpstreamError) as H2.
  { intros Hf. rewrite (weather_not_ok_try p net Hf) in Hm. by injection Hm as <-. }
  destruct (fetchWeather_try_cases p net)
    as [[Hc He]|[[Hc He]|[(m & Hc & He)|(g & w & body & _ & _ & _ & _ & He)]]];
    rewrite He in Hm; [| | |done]; injection Hm as <-.
  1,2: repeat split; intros H; try done; try discriminate H;
    try (specialize (H1 H); discriminate H1);
    try (specialize (H2 H); discriminate H2);
    try (destruct (thrown_into_catch_try p net _ H) as [_ Hk]; discriminate Hk).
  destruct (thrown_into_catch_try p net m Hc) as [_ Hk].
  repeat split; intros H; try done; try congruence;
    try (specialize (H1 H); congruence); try (specialize (H2 H); congruence).
Qed.

(** Unless the geocoding endpoint answers without success and with a body
    that cannot be read, the answers the code takes for "city not found"
    are those of the specification. *)
Lemma geocoding_fails_as_specified p net :
  ¬ geocoding_not_ok_unreadable p net →
  geocoding_fails p net ↔ geocoding_empty_or_not_ok p net.
Proof.
  intros Hread. split.
  - intros (r & data & Hr & Hj & [Hok| ->]); exists r; (split; [done|]); auto.
  - intros (r & Hr & [Hok|Hj]).
    + destruct (json r) as [data|err] eqn:Hj.
      * exists r, data. auto.
      * destruct Hread. by exists r, err.
    + exists r, (GeoArray []). auto.
Qed.

End PageProofs.




(** The answers the theorem leaves aside: the geocoding endpoint answers
    without success and with a body that is no JSON. [json()] is awaited
    before [ok] is looked at, so the page ends with the message of the
    parse error; at the weather step [ok] is looked at first. With the
    body [null] and a success, it ends with the engine's message. *)
Example unreadable_geocoding_answers :
  WeatherSwiper.fetchWeather_try (paris_in metric) html_error_page
  = inr (Lit "JSON Parse error")
  ∧ geocoding_not_ok_unreadable (paris_in metric) html_error_page
  ∧ WeatherSwiper.fetchWeather_try (paris_in metric) null_geocoding_body
    = inr (TypeErrorMessage length_of_null).
Proof.
  split; [reflexivity|]. split; [|reflexivity].
  eexists _, _. split; [reflexivity|]. by split.
Qed.

Section PageRuns.
Import Net WeatherSwiper.

Example toggled_twice_inflight :
  inflight toggled_twice !! 0 = Some (paris_in imperial)
  ∧ inflight toggled_twice !! 1 = Some (paris_in metric)
  ∧ inflight toggled_twice !! 2 = Some (paris_in imperial).
Proof. by vm_compute. Qed.

Example toggled_twice_in_order :
  st (run [Settle 0 at_nine; Settle 2 at_noon] toggled_twice)
  = {| weatherData := Some (paris_snapshot "70 F at noon");
       loading := false; error := None |}.
Proof. by vm_compute. Qed.

End PageRuns.

Section PageOrdering.
Import Net WeatherSwiper.
Context {Body : Type}.
Implicit Types (pg : Page Body) (p : Props) (net : Network Body).

Lemma step_Settle_inflight pg c p net :
  inflight pg !! c = Some p →
  step pg (Settle c net)
  = {| props := props pg;
       st := fetchWeather_end (fetchWeather_try p net) (st pg);
       inflight := delete c (inflight pg);
       calls := calls pg |}.
Proof. intros H. simpl. by rewrite H. Qed.

Lemma step_Render_changed pg p :
  p ≠ props pg → step pg (Render p) = run_effect p pg.
Proof. intros H. simpl. by destruct (decide (p = props pg)). Qed.

Lemma fetchWeather_end_landed (r : WeatherData Body + Text) (s : PageState Body) :
  landed r (fetchWeather_end r s) ∧ loading (fetchWeather_end r s) = false.
Proof. by destruct r. Qed.

Lemma fetchWeather_end_weatherData (r : WeatherData Body + Text) (s : PageState Body) :
  weatherData (fetchWeather_end r s)
  = match r with inl d => Some d | inr _ => weatherData s end.
Proof. by destruct r. Qed.

End PageOrdering.

(** The calls 0 and 2 of [toggled_twice] are for one key; call 2 comes
    back first, with the weather of noon, and call 0 after it, with the
    weather of nine: the page ends with the weather of nine, the result of
    the call initiated first. *)
Lemma last_initiated_wins_fails :
  WeatherSwiper.inflight toggled_twice !! 0 = Some (paris_in imperial)
  ∧ WeatherSwiper.inflight toggled_twice !! 2 = Some (paris_in imperial)
  ∧ WeatherSwiper.fetchWeather_try (paris_in imperial) at_noon
    = inl (paris_snapshot "70 F at noon")
  ∧ WeatherSwiper.st
      (WeatherSwiper.run [WeatherSwiper.Settle 2 at_noon; WeatherSwiper.Settle 0 at_nine]
         toggled_twice)
    = {| WeatherSwiper.weatherData := Some (paris_snapshot "61 F at nine");
         WeatherSwiper.loading := false; WeatherSwiper.error := None |}
  ∧ ¬ last_initiated_wins.
Proof.
  split; [by vm_compute|]. split; [by vm_compute|].
  split; [by vm_compute|]. split; [by vm_compute|].
  intros H.
  destruct (H string toggled_twice 0 2 (paris_in imperial) at_nine at_noon)
    as [_ H2]; [lia|by vm_compute|by vm_compute|].
  vm_compute in H2. discriminate H2.
Qed.

(** C3, as the code has it: of two calls of [fetchWeather] in flight on a
    page, for one key or for two, the one that completes last is the one
    whose result the page holds in the end -- its snapshot in
    [weatherData] after a success, its message in [error] after a failure,
    with [loading] off -- whichever of the two was initiated first. *)
Theorem last_completed_wins {Body : Type}
  (pg : WeatherSwiper.Page Body) (a b : nat) (pa pb : WeatherSwiper.Props)
  (netA netB : WeatherSwiper.Network Body)
  (Hab : a ≠ b)
  (Ha : WeatherSwiper.inflight pg !! a = Some pa)
  (Hb : WeatherSwiper.inflight pg !! b = Some pb) :
  let pg' := WeatherSwiper.run
               [WeatherSwiper.Settle a netA; WeatherSwiper.Settle b netB] pg in
  landed (WeatherSwiper.fetchWeather_try pb netB) (WeatherSwiper.st pg')
  ∧ WeatherSwiper.loading (WeatherSwiper.st pg') = false
  ∧ WeatherSwiper.st pg'
    = WeatherSwiper.fetchWeather_end (WeatherSwiper.fetchWeather_try pb netB)
        (WeatherSwiper.fetchWeather_end (WeatherSwiper.fetchWeather_try pa netA)
           (WeatherSwiper.st pg)).
Proof.
  intros pg'. unfold pg', WeatherSwiper.run. cbn [fold_left].
  rewrite (step_Settle_inflight pg a pa netA Ha).
  rewrite (step_Settle_inflight _ b pb netB);
    [|cbn; by rewrite lookup_delete_ne].
  cbn [WeatherSwiper.st].
  split; [apply fetchWeather_end_landed|].
  split; [apply fetchWeather_end_landed|done].
Qed.

Lemma last_completed_wins_witness :
  WeatherSwiper.weatherData
    (WeatherSwiper.st
       (WeatherSwiper.run [WeatherSwiper.Settle 2 at_noon; WeatherSwiper.Settle 0 at_nine]
          toggled_twice))
  = Some (paris_snapshot "61 F at nine").
Proof.
  apply (last_completed_wins toggled_twice 2 0 (paris_in imperial) (paris_in imperial)
           at_noon at_nine);
    [lia|by vm_compute|by vm_compute].
Defined.

Example paris_metric_loaded_shows :
  WeatherSwiper.render paris_metric_loaded
  = {| WeatherSwiper.spinner := false; WeatherSwiper.errorText := None;
       WeatherSwiper.snapshot := Some (paris_snapshot "21 C, wind 4 m/s", metric) |}.
Proof. by vm_compute. Qed.

(** The metric snapshot under the imperial labels, during the new fetch
    and after it failed. *)
Example paris_switched_shows :
  WeatherSwiper.render
    (WeatherSwiper.run [WeatherSwiper.Render (paris_in imperial)] paris_metric_loaded)
  = {| WeatherSwiper.spinner := true; WeatherSwiper.errorText := None;
       WeatherSwiper.snapshot := Some (paris_snapshot "21 C, wind 4 m/s", imperial) |}
  ∧ WeatherSwiper.render
      (WeatherSwiper.run [WeatherSwiper.Render (paris_in imperial);
                          WeatherSwiper.Settle 1 offline] paris_metric_loaded)
    = {| WeatherSwiper.spinner := false;
         WeatherSwiper.errorText := Some (Lit "Network request failed");
         WeatherSwiper.snapshot := Some (paris_snapshot "21 C, wind 4 m/s", imperial) |}.
Proof. by vm_compute. Qed.

(** Paris was fetched under metric; the units switch to imperial: the
    page shows the metric snapshot under the imperial labels. *)
Lemma stale_snapshot_is_shown :
  WeatherSwiper.weatherData (WeatherSwiper.st paris_metric_loaded)
  = Some (paris_snapshot "21 C, wind 4 m/s")
  ∧ WeatherSwiper.snapshot
      (WeatherSwiper.render
         (WeatherSwiper.step paris_metric_loaded (WeatherSwiper.Render (paris_in imperial))))
    = Some (paris_snapshot "21 C, wind 4 m/s", imperial)
  ∧ ¬ stale_snapshot_never_shown.
Proof.
  split; [by vm_compute|]. split; [by vm_compute|].
  intros H.
  assert (imperial ≠ metric) as Hu by discriminate.
  specialize (H string paris_metric_loaded (paris_in imperial) eq_refl (or_introl Hu)).
  vm_compute in H. discriminate H.
Qed.

(** C4, as the code has it: when [units] or [lang] change, the page turns
    [loading] on, clears [error] and starts a fetch under the new
    preferences; the snapshot it holds is kept, and shown with the labels
    of the new units, until a fetch succeeds, whose snapshot replaces it;
    a fetch that fails leaves it in place. *)
Theorem prefs_change_keeps_snapshot {Body : Type}
  (pg : WeatherSwiper.Page Body) (p' : WeatherSwiper.Props)
  (Hchange : WeatherSwiper.units p' ≠ WeatherSwiper.units (WeatherSwiper.props pg)
             ∨ WeatherSwiper.lang p' ≠ WeatherSwiper.lang (WeatherSwiper.props pg)) :
  let pg' := WeatherSwiper.step pg (WeatherSwiper.Render p') in
  WeatherSwiper.loading (WeatherSwiper.st pg') = true
  ∧ WeatherSwiper.error (WeatherSwiper.st pg') = None
  ∧ WeatherSwiper.inflight pg' !! WeatherSwiper.calls pg = Some p'
  ∧ WeatherSwiper.weatherData (WeatherSwiper.st pg')
    = WeatherSwiper.weatherData (WeatherSwiper.st pg)
  ∧ WeatherSwiper.snapshot (WeatherSwiper.render pg')
    = (λ d, (d, WeatherSwiper.units p'))
        <$> WeatherSwiper.weatherData (WeatherSwiper.st pg)
  ∧ ∀ net,
      WeatherSwiper.weatherData
        (WeatherSwiper.st
           (WeatherSwiper.step pg' (WeatherSwiper.Settle (WeatherSwiper.calls pg) net)))
      = match WeatherSwiper.fetchWeather_try p' net with
        | inl fresh => Some fresh
        | inr _ => WeatherSwiper.weatherData (WeatherSwiper.st pg)
        end.
Proof.
  intros pg'.
  assert (p' ≠ WeatherSwiper.props pg) as Hne
    by (intros ->; by destruct Hchange).
  unfold pg'. rewrite (step_Render_changed pg p' Hne).
  assert (WeatherSwiper.inflight (WeatherSwiper.run_effect p' pg)
            !! WeatherSwiper.calls pg = Some p') as Hin
    by (cbn; apply lookup_insert_eq).
  repeat split; try done.
  intros net. rewrite (step_Settle_inflight _ _ p' net Hin). cbn [WeatherSwiper.st].
  by rewrite fetchWeather_end_weatherData.
Qed.

Lemma prefs_change_keeps_snapshot_witness :
  WeatherSwiper.snapshot
    (WeatherSwiper.render
       (WeatherSwiper.step paris_metric_loaded (WeatherSwiper.Render (paris_in imperial))))
  = Some (paris_snapshot "21 C, wind 4 m/s", imperial).
Proof.
  apply (prefs_change_keeps_snapshot paris_metric_loaded (paris_in imperial)).
  left. discriminate.
Defined.

(** ** Suggestions: first occurrences *)

Section FirstOccurrences.
Context {A K : Type} `{EqDecision K} (key : A → K).

Lemma first_occurrences_from_ext (s1 s2 : list K) (l : list A) :
  (∀ k, k ∈ s1 ↔ k ∈ s2) →
  first_occurrences_from key s1 l = first_occurrences_from key s2 l.
Proof.
  revert s1 s2. induction l as [|x r IH]; intros s1 s2 Hs; [done|].
  simpl. destruct (decide (key x ∈ s1)) as [H1|H1], (decide (key x ∈ s2)) as [H2|H2].
  - by apply IH.
  - by apply Hs in H1.
  - by apply Hs in H2.
  - f_equal. apply IH. intros k. rewrite !elem_of_cons. by rewrite Hs.
Qed.

Lemma first_occurrences_from_sublist (seen : list K) (l : list A) :
  first_occurrences_from key seen l `sublist_of` l.
Proof.
  revert seen. induction l as [|x r IH]; intros seen; simpl; [constructor|].
  destruct (decide (key x ∈ seen)).
  - apply sublist_cons, IH.
  - apply sublist_skip, IH.
Qed.

Lemma first_occurrences_from_fresh (seen : list K) (l : list A) (x : A) :
  x ∈ first_occurrences_from key seen l → key x ∉ seen.
Proof.
  revert seen. induction l as [|y r IH]; intros seen; simpl; [by intros ?%elem_of_nil|].
  destruct (decide (key y ∈ seen)) as [Hy|Hy]; [by apply IH|].
  intros [->|Hx]%elem_of_cons; [done|].
  apply IH in Hx. by apply not_elem_of_cons in Hx as [_ ?].
Qed.

Lemma first_occurrences_from_NoDup (seen : list K) (l : list A) :
  NoDup (key <$> first_occurrences_from key seen l).
Proof.
  revert seen. induction l as [|y r IH]; intros seen; simpl; [constructor|].
  destruct (decide (key y ∈ seen)) as [Hy|Hy]; [by apply IH|].
  rewrite fmap_cons. apply NoDup_cons. split; [|by apply IH].
  intros (x & Hk & Hx)%list_elem_of_fmap.
  apply first_occurrences_from_fresh in Hx. apply Hx. rewrite <- Hk. by left.
Qed.

(** The first element of [l] with a given key is kept. *)
Lemma first_occurrences_from_first (seen : list K) (l : list A) (k : K) i x :
  list_find (λ y, key y = k) l = Some (i, x) → k ∉ seen →
  x ∈ first_occurrences_from key seen l.
Proof.
  revert seen i. induction l as [|y r IH]; intros seen i; [done|].
  cbn [list_find]. destruct (decide (key y = k)) as [Hy|Hy].
  - intros [= <- <-] Hk. simpl. rewrite Hy.
    destruct (decide (k ∈ seen)); [done|by left].
  - destruct (list_find (λ y0, key y0 = k) r) as [[j z]|] eqn:Hf; [|done].
    intros [= <- <-] Hk. simpl.
    destruct (decide (key y ∈ seen)).
    + by apply (IH seen j).
    + right. apply (IH _ j); [done|].
      apply not_elem_of_cons. split; [congruence|done].
Qed.

End FirstOccurrences.

(** Two keys that tell the same elements apart keep the same elements. *)
Lemma first_occurrences_from_keys {A K1 K2} `{EqDecision K1} `{EqDecision K2}
  (key1 : A → K1) (key2 : A → K2) (xs l : list A) :
  (∀ x y, x ∈ xs ++ l → y ∈ xs ++ l → key1 x = key1 y ↔ key2 x = key2 y) →
  first_occurrences_from key1 (key1 <$> xs) l
  = first_occurrences_from key2 (key2 <$> xs) l.
Proof.
  revert xs. induction l as [|x r IH]; intros xs Heq; [done|].
  assert (x ∈ xs ++ x :: r) as Hx by (apply elem_of_app; right; by left).
  assert (key1 x ∈ key1 <$> xs ↔ key2 x ∈ key2 <$> xs) as Hin.
  { split; intros (y & Hk & Hy)%list_elem_of_fmap; apply list_elem_of_fmap;
      exists y; (split; [|done]); apply (Heq x y); try done;
      apply elem_of_app; by left. }
  assert (first_occurrences_from key1 (key1 <$> x :: xs) r
          = first_occurrences_from key2 (key2 <$> x :: xs) r) as Hrec.
  { apply IH. intros y z Hy Hz. apply Heq.
    - apply elem_of_app. apply elem_of_app in Hy as [[->|Hy]%elem_of_cons|Hy];
        [right; by left|by left|right; by right].
    - apply elem_of_app. apply elem_of_app in Hz as [[->|Hz]%elem_of_cons|Hz];
        [right; by left|by left|right; by right]. }
  simpl.
  destruct (decide (key1 x ∈ key1 <$> xs)) as [H1|H1],
           (decide (key2 x ∈ key2 <$> xs)) as [H2|H2].
  - apply IH. intros y z Hy Hz. apply Heq.
    + apply elem_of_app. apply elem_of_app in Hy as [Hy|Hy]; [by left|right; by right].
    + apply elem_of_app. apply elem_of_app in Hz as [Hz|Hz]; [by left|right; by right].
  - by apply Hin in H1.
  - by apply Hin in H2.
  - f_equal. exact Hrec.
Qed.

Section Suggestions.
Import MenuScreen.
Local Arguments String.append !_ _ / : simpl nomatch.

Lemma fold_forEach_body (data : list Net.GeoEntry) (map : list (string * Suggestion)) :
  fold_left forEach_body data map
  = map ++ ((λ item, (key_of item, suggestion_of item))
              <$> first_occurrences_from key_of map.*1 data).
Proof.
  revert map. induction data as [|item r IH]; intros map; simpl.
  { by rewrite app_nil_r. }
  rewrite IH. unfold forEach_body, Map_set, Map_has.
  destruct (decide (key_of item ∈ map.*1)) as [Hin|Hin].
  - by rewrite (bool_decide_eq_true_2 _ Hin).
  - rewrite (bool_decide_eq_false_2 _ Hin). simpl.
    rewrite <- app_assoc. simpl. do 3 f_equal.
    apply first_occurrences_from_ext. intros k.
    rewrite fmap_app, elem_of_app, elem_of_cons. simpl.
    rewrite list_elem_of_singleton. tauto.
Qed.

(** The suggestions are the first occurrences by the key of the map. *)
Lemma suggestions_of_key (data : list Net.GeoEntry) :
  suggestions_of data = suggestion_of <$> first_occurrences key_of data.
Proof.
  unfold suggestions_of, Map_values, first_occurrences.
  rewrite fold_forEach_body. simpl.
  rewrite <- list_fmap_compose. done.
Qed.

Lemma append_comma_inj (n1 c1 n2 c2 : string) :
  Js.includes "," c1 = false → Js.includes "," c2 = false →
  n1 +:+ "," +:+ c1 = n2 +:+ "," +:+ c2 → n1 = n2 ∧ c1 = c2.
Proof.
  intros H1 H2. revert n2.
  induction n1 as [|a n1 IH]; intros [|b n2]; simpl.
  - by intros [= ->].
  - intros [= <- ->]. exfalso.
    clear -H1. induction n2 as [|b n2 IH]; simpl in H1; [done|].
    apply orb_false_elim in H1 as [_ H1]. by apply IH.
  - intros [= -> <-]. exfalso.
    clear -H2. induction n1 as [|b n1 IH]; simpl in H2; [done|].
    apply orb_false_elim in H2 as [_ H2]. by apply IH.
  - intros [= -> Heq]. destruct (IH _ Heq) as [-> ->]. done.
Qed.

Lemma key_of_pair_of (x y : Net.GeoEntry) :
  Js.includes "," (Net.country x) = false →
  Js.includes "," (Net.country y) = false →
  key_of x = key_of y ↔ pair_of x = pair_of y.
Proof.
  intros Hx Hy. unfold key_of, pair_of. split.
  - intros H. by destruct (append_comma_inj _ _ _ _ Hx Hy H) as [-> ->].
  - by intros [= -> ->].
Qed.

End Suggestions.

(** The condition on the countries below is needed by the map as it is
    keyed: were a country to hold a comma, two results of different
    pairs, (A,B ; C) and (A ; B,C), would have the one key A,B,C and the
    second would be dropped. *)
Example comma_in_country_shares_a_key :
  pair_of comma_in_name ≠ pair_of comma_in_country
  ∧ MenuScreen.key_of comma_in_name = MenuScreen.key_of comma_in_country
  ∧ MenuScreen.suggestions_of [comma_in_name; comma_in_country]
    = [MenuScreen.suggestion_of comma_in_name].
Proof.
  split; [discriminate|]. split; [reflexivity|]. by vm_compute.
Qed.

(** C9: for every sequence of geocoding results, whose country codes are
    the endpoint's two-letter codes and so hold no comma, the suggestions
    are the results deduplicated by the pair (name, country): of every
    pair the first occurrence in the input is kept, once, and the kept
    ones are in the order of the input. (The map is keyed by the name and
    the country joined by a comma, which tells the same results apart as
    the pair does when no country holds a comma.) *)
Theorem suggestions_dedup_by_pair (data : list Net.GeoEntry)
  (Hcc : Forall (λ item, Js.includes "," (Net.country item) = false) data) :
  MenuScreen.suggestions_of data
  = MenuScreen.suggestion_of <$> first_occurrences pair_of data
  ∧ first_occurrences pair_of data `sublist_of` data
  ∧ NoDup (pair_of <$> first_occurrences pair_of data)
  ∧ ∀ item, item ∈ data →
      ∃ i first,
        list_find (λ x, pair_of x = pair_of item) data = Some (i, first)
        ∧ first ∈ first_occurrences pair_of data
        ∧ MenuScreen.suggestion_of first ∈ MenuScreen.suggestions_of data.
Proof.
  assert (MenuScreen.suggestions_of data
          = MenuScreen.suggestion_of <$> first_occurrences pair_of data) as Hout.
  { rewrite suggestions_of_key. f_equal. unfold first_occurrences.
    apply (first_occurrences_from_keys MenuScreen.key_of pair_of [] data).
    simpl. intros x y Hx Hy. rewrite Forall_forall in Hcc.
    apply key_of_pair_of; by apply Hcc. }
  split; [exact Hout|].
  split; [apply first_occurrences_from_sublist|].
  split; [apply first_occurrences_from_NoDup|].
  intros item Hitem.
  destruct (list_find_elem_of (λ x, pair_of x = pair_of item) data item Hitem eq_refl)
    as [[i first] Hf].
  exists i, first. split; [done|].
  assert (first ∈ first_occurrences pair_of data) as Hfirst.
  { apply (first_occurrences_from_first pair_of [] data (pair_of item) i first Hf).
    apply not_elem_of_nil. }
  split; [done|]. rewrite Hout. by apply list_elem_of_fmap_2.
Qed.

Lemma suggestions_dedup_by_pair_witness :
  MenuScreen.suggestions_of
    [ {| Net.lat := "51.5"; Net.lon := "-0.12"; Net.name := "London";
         Net.country := "GB"; Net.state := Some "England"; Net.local_names := None |};
      {| Net.lat := "42.98"; Net.lon := "-81.24"; Net.name := "London";
         Net.country := "CA"; Net.state := Some "Ontario"; Net.local_names := None |};
      {| Net.lat := "51.51"; Net.lon := "-0.09"; Net.name := "London";
         Net.country := "GB"; Net.state := None; Net.local_names := None |} ]
  = [ {| MenuScreen.name := "London"; MenuScreen.country := "GB";
         MenuScreen.state := Some "England" |};
      {| MenuScreen.name := "London"; MenuScreen.country := "CA";
         MenuScreen.state := Some "Ontario" |} ].
Proof.
  etransitivity.
  - apply suggestions_dedup_by_pair. repeat constructor.
  - by vm_compute.
Defined.

(** ** The search box: debounce *)

Lemma trimStart_length s : String.length (Js.trimStart s) ≤ String.length s.
Proof.
  induction s as [|c r IH]; simpl; [done|].
  destruct (Js.isWhiteSpace c); simpl; lia.
Qed.

Lemma trimEnd_length s : String.length (Js.trimEnd s) ≤ String.length s.
Proof.
  induction s as [|c r IH]; simpl; [done|].
  destruct (Js.trimEnd r); [destruct (Js.isWhiteSpace c)|]; simpl in *; lia.
Qed.

Lemma trim_length s : String.length (Js.trim s) ≤ String.length s.
Proof.
  unfold Js.trim. etransitivity; [apply trimEnd_length|apply trimStart_length].
Qed.

Section Debounce.
Import MenuScreen.

Lemma filter_none {A} (P : A → Prop) `{∀ x, Decision (P x)} (l : list A) :
  Forall (λ x, ¬ P x) l → filter P l = [].
Proof.
  induction 1 as [|x l Hx _ IH]; [done|].
  rewrite filter_cons. by destruct (decide (P x)).
Qed.

Lemma filter_all {A} (P : A → Prop) `{∀ x, Decision (P x)} (l : list A) :
  Forall P l → filter P l = l.
Proof.
  induction 1 as [|x l Hx _ IH]; [done|].
  rewrite filter_cons. destruct (decide (P x)); [by f_equal|done].
Qed.

(** Time passes and no timer comes due. *)
Lemma advance_idle dt s :
  Forall (λ tm, now s + dt < due tm) (timers s) →
  advance dt s
  = {| searchInput := searchInput s; suggestions := suggestions s;
       now := now s + dt; timers := timers s; nextTimer := nextTimer s;
       cleanup := cleanup s; lookups := lookups s |}.
Proof.
  intros Hdue. unfold advance.
  rewrite filter_none, filter_all; [done| |].
  - eapply Forall_impl; [exact Hdue|]. simpl. intros tm Htm. lia.
  - eapply Forall_impl; [exact Hdue|]. simpl. intros tm Htm. lia.
Qed.

Lemma one_pending_not_due s dt :
  one_pending s → dt < 300 → Forall (λ tm, now s + dt < due tm) (timers s).
Proof.
  intros [->|(timer & -> & _)] Hdt; [constructor|].
  repeat constructor. simpl. lia.
Qed.

(** What a keystroke that changes the text does, within 300 ms of the one
    before: the pending lookup is dropped, and a new one is scheduled or
    the suggestions are cleared. *)
Lemma keystroke_in_window s gap q :
  one_pending s → gap < 300 → q ≠ searchInput s →
  setSearchInput q (advance gap s)
  = if Nat.ltb 2 (String.length (Js.trim q)) then
      {| searchInput := q; suggestions := suggestions s; now := now s + gap;
         timers := [ {| timer_id := nextTimer s; due := now s + gap + 300; query := q |} ];
         nextTimer := S (nextTimer s); cleanup := Some (nextTimer s);
         lookups := lookups s |}
    else
      {| searchInput := q; suggestions := []; now := now s + gap; timers := [];
         nextTimer := nextTimer s; cleanup := None; lookups := lookups s |}.
Proof.
  intros Hone Hgap Hq.
  rewrite (advance_idle gap s (one_pending_not_due s gap Hone Hgap)).
  unfold setSearchInput.
  cbn [searchInput suggestions now timers nextTimer cleanup lookups].
  destruct (decide (q = searchInput s)) as [|_]; [done|].
  assert (run_cleanup
            {| searchInput := q; suggestions := suggestions s; now := now s + gap;
               timers := timers s; nextTimer := nextTimer s; cleanup := cleanup s;
               lookups := lookups s |}
          = {| searchInput := q; suggestions := suggestions s; now := now s + gap;
               timers := []; nextTimer := nextTimer s; cleanup := cleanup s;
               lookups := lookups s |}) as ->.
  { unfold run_cleanup, clearTimeout. cbn [cleanup timers].
    destruct Hone as [Ht|(timer & Ht & Hc & _)].
    - rewrite Ht. by destruct (cleanup s).
    - rewrite Hc, Ht, filter_cons. cbn [timer_id].
      by destruct (decide (timer ≠ timer)). }
  unfold effect, setTimeout, with_cleanup, setSuggestions.
  cbn [searchInput suggestions now timers nextTimer cleanup lookups].
  by destruct (Nat.ltb 2 (String.length (Js.trim q))).
Qed.

Lemma keystroke_one_pending s gap q :
  one_pending s → gap < 300 → q ≠ searchInput s →
  one_pending (setSearchInput q (advance gap s)).
Proof.
  intros Hone Hgap Hq. rewrite (keystroke_in_window s gap q Hone Hgap Hq).
  destruct (Nat.ltb 2 (String.length (Js.trim q))); [|by left].
  right. exists (nextTimer s). cbn. split; [done|]. split; [done|lia].
Qed.

Lemma keystroke_lookups s gap q :
  one_pending s → gap < 300 → q ≠ searchInput s →
  lookups (setSearchInput q (advance gap s)) = lookups s
  ∧ searchInput (setSearchInput q (advance gap s)) = q.
Proof.
  intros Hone Hgap Hq. rewrite (keystroke_in_window s gap q Hone Hgap Hq).
  by destruct (Nat.ltb 2 (String.length (Js.trim q))).
Qed.

Lemma last_cons_default {A} (a d : A) (l : list A) :
  List.last (a :: l) d = List.last l a.
Proof.
  revert a d. induction l as [|b l IH]; intros a d; [done|].
  change (List.last (a :: b :: l) d) with (List.last (b :: l) d).
  by rewrite (IH b d), (IH b a).
Qed.

Lemma each_changes_app c ks r :
  each_changes c (ks ++ r) →
  each_changes c ks ∧ each_changes (List.last ks.*2 c) r.
Proof.
  revert c. induction ks as [|k ks IH]; intros c; [done|].
  intros [Hk Hr]. destruct (IH _ Hr) as [H1 H2]. split; [done|].
  rewrite fmap_cons. by rewrite last_cons_default.
Qed.

(** Keystrokes within one window: no lookup leaves. *)
Lemma keystrokes_in_window ks s :
  one_pending s → Forall (λ k, k.1 < 300) ks → each_changes (searchInput s) ks →
  one_pending (keystrokes ks s)
  ∧ lookups (keystrokes ks s) = lookups s
  ∧ searchInput (keystrokes ks s) = List.last ks.*2 (searchInput s).
Proof.
  revert s. induction ks as [|[gap q] ks IH]; intros s Hone Hwin Hchg; [done|].
  apply Forall_cons in Hwin as [Hgap Hwin]. destruct Hchg as [Hq Hchg].
  simpl in Hgap, Hq, Hchg.
  destruct (keystroke_lookups s gap q Hone Hgap Hq) as [Hl Hs].
  change (keystrokes ((gap, q) :: ks) s)
    with (keystrokes ks (setSearchInput q (advance gap s))).
  destruct (IH (setSearchInput q (advance gap s))) as (H1 & H2 & H3).
  - by apply keystroke_one_pending.
  - done.
  - by rewrite Hs.
  - split; [done|]. split; [by rewrite H2|].
    rewrite H3, Hs, fmap_cons. by rewrite last_cons_default.
Qed.

(** The quiet period ends: the pending lookup leaves. *)
Lemma advance_fires s timer d :
  timers s = [ {| timer_id := timer; due := now s + 300; query := searchInput s |} ] →
  2 < String.length (Js.trim (searchInput s)) → 300 ≤ d →
  lookups (advance d s) = lookups s ++ [searchInput s] ∧ timers (advance d s) = [].
Proof.
  intros Ht Hq Hd. unfold advance. rewrite Ht, !filter_cons. cbn.
  destruct (decide (now s + 300 ≤ now s + d)) as [_|]; [|lia].
  destruct (decide (¬ now s + 300 ≤ now s + d)) as [|_]; [lia|].
  cbn. unfold fetchSuggestions_begin.
  pose proof (trim_length (searchInput s)).
  destruct (Nat.ltb_spec (String.length (searchInput s)) 3); [lia|done].
Qed.

End Debounce.

Section DebounceQuiet.
Import MenuScreen.

(** A keystroke in the window and then quiet: one lookup for its text, or
    none when the text is short; the lookup pending before it never
    leaves. *)
Lemma keystroke_then_quiet s gap q d :
  one_pending s → gap < 300 → q ≠ searchInput s → 300 ≤ d →
  lookups (advance d (setSearchInput q (advance gap s)))
  = lookups s ++ (if Nat.ltb 2 (String.length (Js.trim q)) then [q] else [])
  ∧ timers (advance d (setSearchInput q (advance gap s))) = [].
Proof.
  intros Hone Hgap Hq Hd.
  rewrite (keystroke_in_window s gap q Hone Hgap Hq).
  destruct (Nat.ltb_spec 2 (String.length (Js.trim q))) as [Hlen|Hlen].
  - match goal with
    | |- context [advance d ?x] =>
        exact (advance_fires x (nextTimer s) d eq_refl Hlen Hd)
    end.
  - rewrite advance_idle by constructor. cbn. by rewrite app_nil_r.
Qed.

Lemma keystrokes_snoc ks k s :
  keystrokes (ks ++ [k]) s = setSearchInput k.2 (advance k.1 (keystrokes ks s)).
Proof. unfold keystrokes. by rewrite fold_left_app. Qed.

End DebounceQuiet.

(** C6: keystrokes that each change the text and each come less than
    300 ms after the one before, typed into a search box with no lookup
    pending: no lookup leaves while they are typed, and once 300 ms have
    passed in quiet exactly one has left, for the last text -- none when
    the trimmed length of the last text is below 3, and then the
    suggestions were cleared at that keystroke and no lookup was scheduled.
    The lookup a keystroke schedules is cancelled by the next keystroke and
    never leaves. *)
Theorem debounce_one_lookup
  (s : MenuScreen.State) (ks : list (nat * string)) (gap : nat) (q : string) (d : nat)
  (Hquiet : MenuScreen.timers s = [])
  (Hwin : Forall (λ k, k.1 < 300) (ks ++ [(gap, q)]))
  (Hchg : each_changes (MenuScreen.searchInput s) (ks ++ [(gap, q)]))
  (Hd : 300 ≤ d) :
  let s1 := MenuScreen.keystrokes (ks ++ [(gap, q)]) s in
  MenuScreen.lookups s1 = MenuScreen.lookups s
  ∧ MenuScreen.lookups (MenuScreen.advance d s1)
    = MenuScreen.lookups s
      ++ (if Nat.ltb 2 (String.length (Js.trim q)) then [q] else [])
  ∧ MenuScreen.timers (MenuScreen.advance d s1) = []
  ∧ (String.length (Js.trim q) < 3 →
     MenuScreen.suggestions s1 = [] ∧ MenuScreen.timers s1 = [])
  ∧ (2 < String.length (Js.trim q) →
     ∃ tm,
       MenuScreen.timers s1 = [tm]
       ∧ MenuScreen.query tm = q
       ∧ MenuScreen.due tm = MenuScreen.now s1 + 300
       ∧ ∀ gap' q', gap' < 300 → q' ≠ q →
           let s2 := MenuScreen.setSearchInput q' (MenuScreen.advance gap' s1) in
           (tm ∉ MenuScreen.timers s2)
           ∧ MenuScreen.lookups s2 = MenuScreen.lookups s
           ∧ ∀ d', 300 ≤ d' →
               MenuScreen.lookups (MenuScreen.advance d' s2)
               = MenuScreen.lookups s
                 ++ (if Nat.ltb 2 (String.length (Js.trim q')) then [q'] else [])).
Proof.
  intros s1. unfold s1. clear s1. rewrite keystrokes_snoc. cbn [fst snd].
  apply Forall_app in Hwin as [Hwin Hgap].
  apply (proj1 (Forall_singleton _ _)) in Hgap. cbn in Hgap.
  apply each_changes_app in Hchg as [Hchg [Hlast _]]. cbn in Hlast.
  destruct (keystrokes_in_window ks s (or_introl Hquiet) Hwin Hchg)
    as (Hone & Hlook & Hcur).
  rewrite <- Hcur in Hlast.
  set (s0 := MenuScreen.keystrokes ks s) in *.
  pose proof (keystroke_one_pending s0 gap q Hone Hgap Hlast) as Hone1.
  destruct (keystroke_then_quiet s0 gap q d Hone Hgap Hlast Hd) as [Hfire Htim].
  pose proof (keystroke_in_window s0 gap q Hone Hgap Hlast) as Hs1.
  set (s1 := MenuScreen.setSearchInput q (MenuScreen.advance gap s0)) in *.
  assert (MenuScreen.lookups s1 = MenuScreen.lookups s) as Hl1
    by (rewrite Hs1; destruct (Nat.ltb 2 (String.length (Js.trim q))); exact Hlook).
  assert (MenuScreen.searchInput s1 = q) as Hq1
    by (rewrite Hs1; by destruct (Nat.ltb 2 (String.length (Js.trim q)))).
  split; [exact Hl1|]. split; [by rewrite Hfire, Hlook|]. split; [exact Htim|].
  split.
  { intros Hshort. rewrite Hs1.
    destruct (Nat.ltb_spec 2 (String.length (Js.trim q))); [lia|done]. }
  intros Hq. rewrite (proj2 (Nat.ltb_lt _ _) Hq) in Hs1.
  exists {| MenuScreen.timer_id := MenuScreen.nextTimer s0;
            MenuScreen.due := MenuScreen.now s0 + gap + 300;
            MenuScreen.query := q |}.
  split; [by rewrite Hs1|]. split; [done|]. split; [by rewrite Hs1|].
  intros gap' q' Hgap' Hq'.
  set (s2 := MenuScreen.setSearchInput q' (MenuScreen.advance gap' s1)).
  assert (q' ≠ MenuScreen.searchInput s1) as Hq'1 by (by rewrite Hq1).
  pose proof (keystroke_in_window s1 gap' q' Hone1 Hgap' Hq'1) as Hs2.
  fold s2 in Hs2.
  assert (MenuScreen.nextTimer s1 = S (MenuScreen.nextTimer s0)) as Hn1
    by (by rewrite Hs1).
  split; [|split].
  - rewrite Hs2.
    destruct (Nat.ltb 2 (String.length (Js.trim q'))); cbn;
      [|apply not_elem_of_nil].
    intros Hin%list_elem_of_singleton. injection Hin as Hid _ _. lia.
  - rewrite Hs2. by destruct (Nat.ltb 2 (String.length (Js.trim q'))).
  - intros d' Hd'.
    destruct (keystroke_then_quiet s1 gap' q' d' Hone1 Hgap' Hq'1 Hd') as [H _].
    fold s2 in H. by rewrite H, Hl1.
Qed.

Lemma debounce_one_lookup_witness :
  MenuScreen.lookups
    (MenuScreen.advance 300
       (MenuScreen.keystrokes ([(0, "Lo"); (100, "Lon")] ++ [(120, "Londo")])
          (MenuScreen.mount 0)))
  = MenuScreen.lookups (MenuScreen.mount 0) ++ ["Londo"].
Proof.
  apply (debounce_one_lookup (MenuScreen.mount 0) [(0, "Lo"); (100, "Lon")] 120 "Londo" 300).
  - reflexivity.
  - repeat constructor; cbn; lia.
  - cbn. repeat split; discriminate.
  - lia.
Defined.

Example typing_Londo :
  MenuScreen.lookups
    (MenuScreen.advance 300
       (MenuScreen.keystrokes [(0, "Lo"); (100, "Lon"); (120, "Londo")]
          (MenuScreen.mount 0)))
  = ["Londo"]
  ∧ MenuScreen.lookups
      (MenuScreen.advance 300
         (MenuScreen.keystrokes [(0, "Lon"); (100, "Lo")] (MenuScreen.mount 0)))
    = [].
Proof. by vm_compute. Qed.

(** ** The active index *)

Example delete_A_viewing_B :
  Index.cities (fst (Index.deleteCity 0 viewing_B)) = ["B"]
  ∧ Index.activeIndex (fst (Index.deleteCity 0 viewing_B)) = 1
  ∧ Index.activeIndex
      (Index.onViewableItemsChanged [ {| index := Some 0 |} ]
         (fst (Index.deleteCity 0 viewing_B))) = 0.
Proof. by vm_compute. Qed.

(** [A, B] with the active index 1: deleting [A] leaves the active
    index 1, where the specification has 0. *)
Lemma delete_reclamps_active_index_fails :
  Index.cities (fst (Index.deleteCity 0 viewing_B)) = ["B"]
  ∧ Index.activeIndex (fst (Index.deleteCity 0 viewing_B)) = 1
  ∧ ¬ delete_reclamps_active_index.
Proof.
  split; [reflexivity|]. split; [reflexivity|].
  intros H. specialize (H viewing_B 0).
  vm_compute in H. specialize (H (le_n 2) (le_n 2) (le_S _ _ (le_n 1))).
  discriminate H.
Qed.

(** C5, as the code has it: on a collection of two locations or more,
    [deleteCity] removes the entry at the given position, the others
    keeping their order, and leaves the active index as it is, whether the
    position is before, at or after it. The active index is set by the
    next report of the list view, to the index of the first viewable page
    (0 when that index is null): a report of a page of the collection
    leaves it within the collection, and from [A, B] with the active
    index 1, deleting [A] gives [B] and the active index 0 once the view
    reports the one page there is. *)
Theorem delete_keeps_active_index (s : Index.State) (i : nat)
  (Hlen : 2 ≤ length (Index.cities s)) :
  let s' := fst (Index.deleteCity i s) in
  Index.cities s' = delete i (Index.cities s)
  ∧ Index.activeIndex s' = Index.activeIndex s
  ∧ (∀ v rest,
       Index.activeIndex (Index.onViewableItemsChanged (v :: rest) s')
       = default 0 (index v))
  ∧ (∀ v rest,
       (∀ j, index v = Some j → j < length (Index.cities s')) →
       Index.activeIndex (Index.onViewableItemsChanged (v :: rest) s')
       < length (Index.cities s'))
  ∧ (length (Index.cities s') = 1 →
     ∀ v rest,
       (∀ j, index v = Some j → j < length (Index.cities s')) →
       Index.activeIndex (Index.onViewableItemsChanged (v :: rest) s') = 0).
Proof.
  intros s'. unfold s'. rewrite Index_deleteCity_many by lia. cbn.
  assert (1 ≤ length (delete i (Index.cities s))) as Hpos
    by (pose proof (delete_length_le i (Index.cities s)); lia).
  split; [done|]. split; [done|]. split; [done|]. split.
  - intros v rest Hv. destruct (index v) as [j|]; cbn; [by apply Hv|lia].
  - intros H1 v rest Hv. destruct (index v) as [j|]; cbn; [|done].
    specialize (Hv j eq_refl). lia.
Qed.

Lemma delete_keeps_active_index_witness :
  Index.cities (fst (Index.deleteCity 0 viewing_B)) = delete 0 ["A"; "B"]
  ∧ Index.activeIndex (fst (Index.deleteCity 0 viewing_B)) = 1.
Proof.
  destruct (delete_keeps_active_index viewing_B 0) as (H1 & H2 & _).
  - cbn. lia.
  - split; [exact H1|exact H2].
Defined.

(** ** Choosing a suggestion *)

Section SelectSuggestion.
Import MenuScreen.

Lemma find_ci_exact (x : string) (cs : list App.City) i c :
  App.find_ci x cs = Some (i, c) →
  list_find (λ c', App.id c' = App.id c) cs = Some (i, c).
Proof.
  unfold App.find_ci. rewrite !list_find_Some.
  intros (Hi & Hc & Hfirst). split; [done|]. split; [done|].
  intros j y Hj Hlt Hid. apply (Hfirst j y Hj Hlt). by rewrite Hid.
Qed.

Lemma handleSelectSuggestion_existing city app s i c :
  App.find_ci (name city +:+ ", " +:+ country city) (App.cities app) = Some (i, c) →
  handleSelectSuggestion city app s
  = (App.setMenuVisible false app, setSuggestions [] (setSearchInput EmptyString s),
     [FlatList_scrollToIndex i]).
Proof.
  intros Hf. unfold handleSelectSuggestion. rewrite Hf.
  unfold App.handleCitySelect. by rewrite (find_ci_exact _ _ i c Hf).
Qed.

Lemma handleSelectSuggestion_new city app s :
  App.find_ci (name city +:+ ", " +:+ country city) (App.cities app) = None →
  handleSelectSuggestion city app s
  = (fst (App.addCity (name city +:+ ", " +:+ country city) app),
     setSuggestions [] (setSearchInput EmptyString s),
     snd (App.addCity (name city +:+ ", " +:+ country city) app)).
Proof.
  intros Hf. unfold handleSelectSuggestion. rewrite Hf.
  by destruct (App.addCity _ app).
Qed.

Lemma find_ci_member x cs :
  ci_member x (App.id <$> cs) ↔ is_Some (App.find_ci x cs).
Proof.
  split.
  - intros (i & Hi & Heq). apply list_elem_of_fmap in Hi as (c & -> & Hc).
    by apply (list_find_elem_of _ _ c).
  - intros [[i c] Hf]. apply list_find_Some in Hf as (Hi & Hc & _).
    exists (App.id c). split; [|done].
    apply list_elem_of_fmap. exists c. split; [done|].
    by apply list_elem_of_lookup_2 in Hi.
Qed.

End SelectSuggestion.




(* ================================================================== *)
(** * More properties of the code *)

(** ** The collection *)

Lemma ci_unique_sublist (l k : list string) :
  l `sublist_of` k → ci_unique k → ci_unique l.
Proof.
  unfold ci_unique. intros Hsub Hk.
  apply (sublist_NoDup _ _ Hk). by apply fmap_sublist.
Qed.

Lemma app_step_ci_unique s op :
  ci_unique (App_ids s) → ci_unique (App_ids (app_step s op)).
Proof.
  intros H. destruct op as [x|x]; simpl; [by apply App_addCity_ci_unique|].
  destruct (Nat.le_gt_cases (length (App.cities s)) 1) as [H1|H1].
  - by rewrite App_deleteCity_last.
  - rewrite App_deleteCity_many by done. unfold App_ids. simpl.
    apply (ci_unique_sublist _ (App.id <$> App.cities s)); [|done].
    apply fmap_sublist, sublist_filter.
Qed.

Lemma index_step_ci_unique s op :
  ci_unique (Index_ids s) → ci_unique (Index_ids (index_step s op)).
Proof.
  intros H. destruct op as [x|i]; simpl; [by apply Index_addCity_ci_unique|].
  destruct (Nat.le_gt_cases (length (Index.cities s)) 1) as [H1|H1].
  - by rewrite Index_deleteCity_last.
  - rewrite Index_deleteCity_many by done. unfold Index_ids. simpl.
    apply (ci_unique_sublist _ (Index.cities s)); [|done].
    apply delete_sublist_of.
Qed.

(** X1: no sequence of additions and deletions makes two ids equal up to
    case: the ids stay pairwise different up to case along every sequence
    of operations started from a collection where they are, in [App] and
    in [Index]; and they are in the collections the two containers start
    with. *)
Theorem ids_stay_unique
  (s : App.State) (t : Index.State) (opsA : list AppOp) (opsI : list IndexOp)
  (Hs : ci_unique (App_ids s)) (Ht : ci_unique (Index_ids t)) :
  ci_unique (App_ids (app_run opsA s))
  ∧ ci_unique (Index_ids (index_run opsI t))
  ∧ (∀ deviceLocale, ci_unique (App_ids (App.initial deviceLocale)))
  ∧ (∀ deviceLocale, ci_unique (Index_ids (Index.initial deviceLocale))).
Proof.
  split; [|split; [|split]].
  - revert s Hs. induction opsA as [|op ops IH]; intros s Hs; [done|].
    simpl. apply IH. by apply app_step_ci_unique.
  - revert t Ht. induction opsI as [|op ops IH]; intros t Ht; [done|].
    simpl. apply IH. by apply index_step_ci_unique.
  - intros l. unfold ci_unique; apply (bool_decide_unpack (NoDup _)); by vm_compute.
  - intros l. unfold ci_unique; apply (bool_decide_unpack (NoDup _)); by vm_compute.
Qed.

Lemma ids_stay_unique_witness :
  ci_unique (App_ids (app_run [AppAdd "tokyo, jp"; AppDelete "London, GB";
                               AppAdd " LONDON, gb "; AppAdd "london, GB"]
                        (App.initial "en-US")))
  ∧ ci_unique (Index_ids (index_run [IndexAdd " tokyo"; IndexDelete 1; IndexAdd "LONDON"]
                            (Index.initial "en-US"))).
Proof.
  destruct (ids_stay_unique (App.initial "en-US") (Index.initial "en-US")
              [AppAdd "tokyo, jp"; AppDelete "London, GB";
               AppAdd " LONDON, gb "; AppAdd "london, GB"]
              [IndexAdd " tokyo"; IndexDelete 1; IndexAdd "LONDON"])
    as (HA & HI & _).
  - unfold ci_unique; apply (bool_decide_unpack (NoDup _)); by vm_compute.
  - unfold ci_unique; apply (bool_decide_unpack (NoDup _)); by vm_compute.
  - by split.
Defined.

Lemma filter_ne_fresh {A B} `{EqDecision B} (f : A → B) (b : B) (xs : list A) :
  b ∉ f <$> xs → filter (λ x, f x ≠ b) xs = xs.
Proof.
  intros Hb. apply filter_all. apply Forall_forall. intros x Hx Heq.
  apply Hb. rewrite <- Heq. by apply list_elem_of_fmap_2.
Qed.

Lemma filter_ne_delete {A B} `{EqDecision B} (f : A → B) (xs : list A) i c :
  NoDup (f <$> xs) → xs !! i = Some c →
  filter (λ x, f x ≠ f c) xs = delete i xs.
Proof.
  revert i. induction xs as [|x r IH]; intros i Hnd Hi; [done|].
  rewrite fmap_cons in Hnd. apply NoDup_cons in Hnd as [Hx Hnd].
  rewrite filter_cons. destruct i as [|i]; simpl in Hi.
  - injection Hi as ->. destruct (decide (f c ≠ f c)) as [Hn|_]; [done|].
    simpl. by apply filter_ne_fresh.
  - destruct (decide (f x ≠ f c)) as [_|Hn].
    + simpl. f_equal. by apply IH.
    + exfalso. apply Hx. apply dec_stable in Hn. rewrite Hn.
      apply list_elem_of_fmap_2. by apply list_elem_of_lookup_2 in Hi.
Qed.

(** X2: in a collection of two cities or more with pairwise different
    ids, [deleteCity] with the id of the city at position [i] removes that
    position and nothing else; with an id no city has, it leaves the
    collection as it is. *)
Theorem delete_by_id_removes_position
  (s : App.State) (i : nat) (c : App.City)
  (Hlen : 2 ≤ length (App.cities s))
  (Hids : NoDup (App_ids s))
  (Hi : App.cities s !! i = Some c) :
  App.cities (fst (App.deleteCity (App.id c) s)) = delete i (App.cities s)
  ∧ length (App.cities (fst (App.deleteCity (App.id c) s)))
    = length (App.cities s) - 1
  ∧ ∀ idToDelete, idToDelete ∉ App_ids s →
      App.cities (fst (App.deleteCity idToDelete s)) = App.cities s.
Proof.
  assert (App.cities (fst (App.deleteCity (App.id c) s)) = delete i (App.cities s))
    as Hdel.
  { rewrite App_deleteCity_many by lia. simpl. by apply filter_ne_delete. }
  split; [exact Hdel|]. split.
  - rewrite Hdel. apply length_delete. by rewrite Hi.
  - intros x Hx. rewrite App_deleteCity_many by lia. simpl.
    by apply filter_ne_fresh.
Qed.

Lemma delete_by_id_removes_position_witness :
  App.cities (fst (App.deleteCity "London, GB" (App.initial "en-US")))
  = delete 1 (App.cities (App.initial "en-US")).
Proof.
  apply (delete_by_id_removes_position (App.initial "en-US") 1
           {| App.id := "London, GB"; App.name := "London,GB" |}).
  - cbn. lia.
  - apply (bool_decide_unpack (NoDup _)). by vm_compute.
  - reflexivity.
Defined.

(** X3: adding a city and deleting it again gives back the state one
    started from: in [App] deleting the trimmed identifier just added, in
    [Index] deleting the last position, whenever the addition went through
    (the trimmed identifier is not blank and matches no id up to case) and
    the collection was not empty. *)
Theorem add_then_delete_restores
  (s : App.State) (t : Index.State) (x : string)
  (Hx : Js.trim x ≠ EmptyString)
  (Hs : App.cities s ≠ []) (Ht : Index.cities t ≠ [])
  (HfreshA : ¬ ci_member (Js.trim x) (App_ids s))
  (HfreshI : ¬ ci_member (Js.trim x) (Index_ids t)) :
  fst (App.deleteCity (Js.trim x) (fst (App.addCity x s))) = s
  ∧ fst (Index.deleteCity (length (Index.cities t)) (fst (Index.addCity x t))) = t.
Proof.
  split.
  - rewrite App_addCity_fresh; [|done|].
    2:{ apply ci_member_Forall in HfreshA.
        apply (proj1 (Forall_fmap App.id _ (App.cities s))) in HfreshA. exact HfreshA. }
    simpl. rewrite App_deleteCity_many.
    2:{ simpl. rewrite length_app. simpl. destruct (App.cities s); [done|simpl; lia]. }
    simpl. rewrite filter_app, filter_cons, filter_nil. simpl.
    destruct (decide (Js.trim x ≠ Js.trim x)) as [Hn|_]; [done|].
    rewrite app_nil_r, filter_ne_fresh.
    + by destruct s.
    + intros Hin. apply HfreshA. exists (Js.trim x). by split.
  - rewrite Index_addCity_fresh; [|done|by apply ci_member_Forall].
    simpl. rewrite Index_deleteCity_many.
    2:{ simpl. rewrite length_app. simpl. destruct (Index.cities t); [done|simpl; lia]. }
    simpl. rewrite (delete_middle (Index.cities t) [] (Js.trim x)), app_nil_r.
    by destruct t.
Qed.

Lemma add_then_delete_restores_witness :
  fst (App.deleteCity "Paris, FR" (fst (App.addCity " Paris, FR " (App.initial "en-US"))))
  = App.initial "en-US"
  ∧ fst (Index.deleteCity 3 (fst (Index.addCity " Paris, FR " (Index.initial "en-US"))))
    = Index.initial "en-US".
Proof.
  apply (add_then_delete_restores (App.initial "en-US") (Index.initial "en-US")
           " Paris, FR ").
  - discriminate.
  - discriminate.
  - discriminate.
  - apply ci_member_Forall. repeat constructor; discriminate.
  - apply ci_member_Forall. repeat constructor; discriminate.
Defined.

(** X4: [handleCitySelect] always closes the menu and never changes the
    collection; whenever it tells the list to scroll, the index is a
    position of the collection and the city there has the id asked for;
    with pairwise different ids the id of the city at position [i] scrolls
    to [i]; and an id no city has scrolls nowhere. *)
Theorem handleCitySelect_scrolls_in_range (s : App.State) (cityId : string) :
  fst (App.handleCitySelect cityId s) = App.setMenuVisible false s
  ∧ (∀ i, snd (App.handleCitySelect cityId s) = [FlatList_scrollToIndex i] →
       i < length (App.cities s)
       ∧ ∃ c, App.cities s !! i = Some c ∧ App.id c = cityId)
  ∧ (cityId ∉ App_ids s → snd (App.handleCitySelect cityId s) = [])
  ∧ (NoDup (App_ids s) →
     ∀ i c, App.cities s !! i = Some c → App.id c = cityId →
       snd (App.handleCitySelect cityId s) = [FlatList_scrollToIndex i]).
Proof.
  unfold App.handleCitySelect. simpl.
  split; [done|]. split; [|split].
  - intros i.
    destruct (list_find (λ c, App.id c = cityId) (App.cities s)) as [[j c]|] eqn:Hf;
      [|done].
    intros [= <-]. apply list_find_Some in Hf as (Hj & Hc & _).
    split; [by apply lookup_lt_Some in Hj|by exists c].
  - intros Hno.
    destruct (list_find (λ c, App.id c = cityId) (App.cities s)) as [[j c]|] eqn:Hf;
      [|done].
    exfalso. apply list_find_Some in Hf as (Hj & Hc & _). apply Hno.
    rewrite <- Hc. apply list_elem_of_fmap_2. by apply list_elem_of_lookup_2 in Hj.
  - intros Hnd i c Hi Hc.
    assert (list_find (λ c0, App.id c0 = cityId) (App.cities s) = Some (i, c)) as ->;
      [|done].
    apply list_find_Some. split; [done|]. split; [done|].
    intros j y Hj Hlt Hy.
    assert (j = i); [|lia].
    apply (NoDup_lookup (App_ids s) j i cityId Hnd); unfold App_ids;
      rewrite list_lookup_fmap; [by rewrite Hj; simpl; rewrite Hy|
                                 by rewrite Hi; simpl; rewrite Hc].
Qed.

Lemma handleCitySelect_scrolls_in_range_witness :
  snd (App.handleCitySelect "Tokyo, JP" (App.initial "en-US")) = [FlatList_scrollToIndex 2]
  ∧ snd (App.handleCitySelect "Oslo, NO" (App.initial "en-US")) = [].
Proof.
  split.
  - apply (proj2 (proj2 (proj2 (handleCitySelect_scrolls_in_range
                                  (App.initial "en-US") "Tokyo, JP")))
             ltac:(apply (bool_decide_unpack (NoDup _)); by vm_compute)
             2 {| App.id := "Tokyo, JP"; App.name := "Tokyo,JP" |});
      reflexivity.
  - apply (proj1 (proj2 (proj2 (handleCitySelect_scrolls_in_range
                                  (App.initial "en-US") "Oslo, NO")))).
    intros Hin. apply list_elem_of_In in Hin. cbn in Hin.
    repeat destruct Hin as [Hin|Hin]; try discriminate Hin. exact Hin.
Defined.

(** ** The pagination dots *)

Lemma activeDots_from {A} (k a : nat) (cities : list A) :
  length (filter (λ b, b = true)
            (imap (λ index _, bool_decide (a = k + index)) cities))
  = if decide (k ≤ a ∧ a < k + length cities) then 1 else 0.
Proof.
  revert k. induction cities as [|x r IH]; intros k.
  { simpl. destruct (decide (k ≤ a ∧ a < k + 0)); [lia|done]. }
  rewrite imap_cons, filter_cons.
  rewrite (imap_ext _ (λ index _, bool_decide (a = S k + index))).
  2:{ intros i y _. simpl. apply bool_decide_ext. lia. }
  specialize (IH (S k)).
  destruct (decide (bool_decide (a = k + 0) = true)) as [Ha|Ha].
  - apply bool_decide_eq_true in Ha. cbn [length]. rewrite IH.
    destruct (decide (S k ≤ a ∧ a < S k + length r)); [lia|].
    destruct (decide (k ≤ a ∧ a < k + S (length r))); [done|lia].
  - apply not_true_is_false, bool_decide_eq_false in Ha. rewrite IH. cbn [length].
    destruct (decide (S k ≤ a ∧ a < S k + length r)),
             (decide (k ≤ a ∧ a < k + S (length r))); done || lia.
Qed.

(** X5: of the pagination dots, one per city, the dot at a position is
    the active one exactly when the position is the active index; so one
    dot is active when the active index is a position of the collection,
    and none is when it is not. *)
Theorem one_active_dot {A : Type} (cities : list A) (activeIndex : nat) :
  length (paginationDots cities activeIndex) = length cities
  ∧ (∀ i, paginationDots cities activeIndex !! i = Some true
          ↔ i = activeIndex ∧ i < length cities)
  ∧ activeDots cities activeIndex
    = if decide (activeIndex < length cities) then 1 else 0.
Proof.
  unfold activeDots, paginationDots. split; [apply length_imap|]. split.
  - intros i. rewrite list_lookup_imap_Some. split.
    + intros (y & Hy & Hb). symmetry in Hb. apply bool_decide_eq_true in Hb.
      split; [done|]. by apply lookup_lt_Some in Hy.
    + intros [-> Hlt]. destruct (lookup_lt_is_Some_2 cities activeIndex Hlt) as [y Hy].
      exists y. split; [done|]. symmetry. by apply bool_decide_eq_true.
  - pose proof (activeDots_from 0 activeIndex cities) as H. simpl in H.
    rewrite H.
    destruct (decide (0 ≤ activeIndex ∧ activeIndex < length cities)),
             (decide (activeIndex < length cities)); done || lia.
Qed.

(** X6: in [Index], when the last page is the one in view and a city is
    deleted, the footer has no active dot: the collection is one shorter
    and the active index, which [deleteCity] leaves alone, is past its
    end, until the list view reports again. *)
Theorem delete_on_last_page_leaves_no_active_dot (s : Index.State) (i : nat)
  (Hlen : 2 ≤ length (Index.cities s))
  (Hi : i < length (Index.cities s))
  (Hlast : Index.activeIndex s = length (Index.cities s) - 1) :
  activeDots (Index.cities s) (Index.activeIndex s) = 1
  ∧ activeDots (Index.cities (fst (Index.deleteCity i s)))
               (Index.activeIndex (fst (Index.deleteCity i s))) = 0.
Proof.
  destruct (one_active_dot (Index.cities s) (Index.activeIndex s)) as (_ & _ & ->).
  destruct (one_active_dot (Index.cities (fst (Index.deleteCity i s)))
              (Index.activeIndex (fst (Index.deleteCity i s)))) as (_ & _ & ->).
  rewrite Index_deleteCity_many by lia. simpl.
  rewrite length_delete by (by apply lookup_lt_is_Some_2).
  split.
  - destruct (decide (Index.activeIndex s < length (Index.cities s))); [done|lia].
  - destruct (decide (Index.activeIndex s < length (Index.cities s) - 1)); [lia|done].
Qed.

Lemma delete_on_last_page_leaves_no_active_dot_witness :
  activeDots (Index.cities viewing_B) (Index.activeIndex viewing_B) = 1
  ∧ activeDots (Index.cities (fst (Index.deleteCity 0 viewing_B)))
               (Index.activeIndex (fst (Index.deleteCity 0 viewing_B))) = 0.
Proof.
  apply (delete_on_last_page_leaves_no_active_dot viewing_B 0); cbn; lia.
Defined.

(** ** The weather page *)

Section PageMore.
Import Net WeatherSwiper.
Context {Body : Type}.
Implicit Types (p : Props) (net : Network Body) (pg : Page Body).

Lemma fetchWeather_try_geocoded p net g w body :
  geocoded p net g →
  onecall net (onecall_request p g) = Resolved w →
  ok w = true → json w = Resolved body →
  fetchWeather_try p net
  = inl {| wd_name := displayName g (Js.split_first "-" (lang p));
           wd_country := country g; wd_body := body |}.
Proof.
  intros Hg Hw Hwok Hwj. rewrite (geocoded_try p net g Hg).
  by rewrite Hw, Hwok, Hwj.
Qed.

Lemma displayName_shown g langCode : name_shown g langCode (displayName g langCode).
Proof.
  unfold name_shown, displayName.
  destruct (local_names g) as [names|]; [|by repeat split].
  split; [|split; [|split; [|done]]].
  - intros names' n [= <-] Hn Hne. rewrite Hn.
    apply truthy_true in Hne. by rewrite Hne.
  - intros names' [= <-] Hn Hk. rewrite Hn. by rewrite bool_decide_eq_true_2.
  - intros names' [= <-] [Hn|[Hn Hk]]; rewrite Hn; [done|].
    by rewrite bool_decide_eq_false_2.
Qed.

Lemma name_shown_unique g langCode n1 n2 :
  name_shown g langCode n1 → name_shown g langCode n2 → n1 = n2.
Proof.
  intros (A1 & B1 & C1 & D1) (A2 & B2 & C2 & D2).
  destruct (local_names g) as [names|] eqn:Hl; [|by rewrite D1, D2].
  destruct (names !! langCode) as [n|] eqn:Hn.
  - destruct (decide (n = EmptyString)) as [->|Hne].
    + rewrite (C1 names), (C2 names); auto.
    + rewrite (A1 names n), (A2 names n); auto.
  - destruct (decide (langCode ∈ Object_prototype_keys)) as [Hk|Hk].
    + rewrite (B1 names), (B2 names); auto.
    + rewrite (C1 names), (C2 names); auto.
Qed.

Lemma page_settled_step pg ev : page_settled pg → page_settled (step pg ev).
Proof.
  intros [H1 H2]. destruct ev as [p|c net]; simpl.
  - destruct (decide (p = props pg)); [by split|].
    split; [done|]. simpl. intros He. by apply insert_non_empty in He.
  - destruct (inflight pg !! c) as [p|]; [|by split].
    split; simpl; by destruct (fetchWeather_try p net).
Qed.

Lemma page_settled_run evs pg : page_settled pg → page_settled (run evs pg).
Proof.
  revert pg. induction evs as [|ev evs IH]; intros pg H; [done|].
  simpl. apply IH. by apply page_settled_step.
Qed.

End PageMore.


(** A page whose replies overlap holds the snapshot of one call next to
    the error of another: the call for imperial units is out when the
    units change, the call for metric units fails, and then the first
    one succeeds. *)
Example snapshot_next_to_another_calls_error :
  WeatherSwiper.st
    (WeatherSwiper.run
       [WeatherSwiper.Render (paris_in metric);
        WeatherSwiper.Settle 1 offline;
        WeatherSwiper.Settle 0 (answering body_by_units)]
       (WeatherSwiper.mount (paris_in imperial)))
  = {| WeatherSwiper.weatherData := Some (paris_snapshot "70 F, wind 9 mph");
       WeatherSwiper.loading := false;
       WeatherSwiper.error := Some (Lit "Network request failed") |}.
Proof. by vm_compute. Qed.

(** The names a candidate is shown under. *)
Example paris_names :
  WeatherSwiper.displayName paris_named "el" = WeatherSwiper.NameText "Parisi"
  ∧ WeatherSwiper.displayName paris_named "ru" = WeatherSwiper.NameText "Paris"
  ∧ WeatherSwiper.displayName paris_named "en" = WeatherSwiper.NameText "Paris"
  ∧ WeatherSwiper.displayName paris_named "constructor"
    = WeatherSwiper.Inherited "constructor"
  ∧ WeatherSwiper.displayName paris_entry "constructor" = WeatherSwiper.NameText "Paris".
Proof. by vm_compute. Qed.

(** X8: while a page is mounted, whatever it is rendered with and in
    whatever order the replies of its calls come in, it never has the
    spinner on together with an error, and the spinner is off whenever no
    call is out. *)
Theorem spinner_and_error_exclude {Body : Type}
  (p : WeatherSwiper.Props) (evs : list (WeatherSwiper.Event Body)) :
  let pg := WeatherSwiper.run evs (WeatherSwiper.mount p) in
  (WeatherSwiper.loading (WeatherSwiper.st pg) = true
   → WeatherSwiper.error (WeatherSwiper.st pg) = None)
  ∧ (WeatherSwiper.inflight pg = ∅
     → WeatherSwiper.loading (WeatherSwiper.st pg) = false)
  ∧ ¬ (WeatherSwiper.spinner (WeatherSwiper.render pg) = true
       ∧ is_Some (WeatherSwiper.errorText (WeatherSwiper.render pg))).
Proof.
  intros pg.
  assert (page_settled pg) as [H1 H2].
  { apply page_settled_run. split; [done|].
    simpl. intros He. by apply insert_non_empty in He. }
  split; [exact H1|]. split; [exact H2|].
  intros [Hs [e He]]. simpl in Hs, He. rewrite (H1 Hs) in He. discriminate He.
Qed.

(** ** The language sent upstream *)

Local Arguments String.append !_ _ / : simpl nomatch.

Lemma split_first_no_sep sep s : Js.includes sep (Js.split_first sep s) = false.
Proof.
  induction s as [|c r IH]; simpl; [done|].
  destruct (Ascii.eqb c sep) eqn:Hc; simpl; [done|]. by rewrite Hc.
Qed.

Lemma split_first_id sep s : Js.includes sep s = false → Js.split_first sep s = s.
Proof.
  induction s as [|c r IH]; simpl; [done|].
  intros [Hc Hr]%orb_false_elim. rewrite Hc. f_equal. by apply IH.
Qed.

Lemma split_first_append sep base region :
  Js.includes sep base = false →
  Js.split_first sep (base +:+ String sep region) = base.
Proof.
  induction base as [|c r IH]; simpl.
  - intros _. by rewrite Ascii.eqb_refl.
  - intros [Hc Hr]%orb_false_elim. rewrite Hc. f_equal. by apply IH.
Qed.

(** X9: the language a page asks the weather endpoint for is the part of
    its [lang] before the first hyphen, with [zh] replaced by [zh_cn]: it
    never holds a hyphen and is never [zh]; a tag [base-region] is sent as
    its base, so every tag of Chinese is sent as [zh_cn]; a tag without
    hyphen other than [zh] is sent as it is. The units asked for are the
    units of the page. *)
Theorem request_language_normalised (p : WeatherSwiper.Props) (g : Net.GeoEntry) :
  let sent := Net.req_lang (WeatherSwiper.onecall_request p g) in
  Js.includes "-" sent = false
  ∧ sent ≠ "zh"
  ∧ (∀ base region,
       WeatherSwiper.lang p = base +:+ String "-" region →
       Js.includes "-" base = false →
       sent = WeatherSwiper.apiLang base)
  ∧ (∀ region, WeatherSwiper.lang p = "zh" +:+ String "-" region → sent = "zh_cn")
  ∧ (WeatherSwiper.lang p = "zh" → sent = "zh_cn")
  ∧ (Js.includes "-" (WeatherSwiper.lang p) = false →
     WeatherSwiper.lang p ≠ "zh" → sent = WeatherSwiper.lang p)
  ∧ Net.req_units (WeatherSwiper.onecall_request p g) = WeatherSwiper.units p.
Proof.
  intros sent. unfold sent, WeatherSwiper.onecall_request, WeatherSwiper.apiLang.
  cbn [Net.req_lang Net.req_units].
  split; [|split; [|split; [|split; [|split; [|split]]]]].
  - case_bool_decide; [reflexivity|apply split_first_no_sep].
  - case_bool_decide as Hz; [discriminate|done].
  - intros base region -> Hb. by rewrite split_first_append.
  - intros region ->. by rewrite split_first_append.
  - by intros ->.
  - intros Hno Hz. rewrite split_first_id by done. by case_bool_decide.
  - done.
Qed.

Example request_language_examples :
  Net.req_lang (WeatherSwiper.onecall_request
                  {| WeatherSwiper.city := paris; WeatherSwiper.lang := "zh-Hant-TW";
                     WeatherSwiper.units := metric |} paris_entry) = "zh_cn"
  ∧ Net.req_lang (WeatherSwiper.onecall_request
                    {| WeatherSwiper.city := paris; WeatherSwiper.lang := "en-US";
                       WeatherSwiper.units := metric |} paris_entry) = "en".
Proof. split; reflexivity. Qed.

(** ** The search box under any timing *)

Section MenuInvariant.
Import MenuScreen.

Lemma menu_inv_timers_length s : menu_inv s → length (timers s) ≤ 1.
Proof. intros [[->|(tm & -> & _)] _]; simpl; lia. Qed.

Lemma menu_inv_mount t0 : menu_inv (mount t0).
Proof. split; [by left|constructor]. Qed.

Lemma run_cleanup_clears s q :
  menu_inv s →
  timers (run_cleanup
            {| searchInput := q; suggestions := suggestions s; now := now s;
               timers := timers s; nextTimer := nextTimer s; cleanup := cleanup s;
               lookups := lookups s |}) = [].
Proof.
  intros [[Ht|(tm & Ht & Hc & _)] _]; unfold run_cleanup, clearTimeout;
    cbn [cleanup timers].
  - rewrite Ht. by destruct (cleanup s).
  - rewrite Hc, Ht, filter_cons. cbn.
    by destruct (decide (timer_id tm ≠ timer_id tm)).
Qed.

Lemma run_cleanup_fields s :
  searchInput (run_cleanup s) = searchInput s
  ∧ lookups (run_cleanup s) = lookups s
  ∧ suggestions (run_cleanup s) = suggestions s.
Proof. unfold run_cleanup. by destruct (cleanup s). Qed.

Lemma effect_after_cleanup s :
  timers s = [] →
  (lookups (effect s) = lookups s ∧ searchInput (effect s) = searchInput s)
  ∧ ((lookup_worthy (searchInput s)
      ∧ ∃ tm, timers (effect s) = [tm]
          ∧ cleanup (effect s) = Some (timer_id tm)
          ∧ query tm = searchInput s)
     ∨ (¬ lookup_worthy (searchInput s)
        ∧ timers (effect s) = [] ∧ suggestions (effect s) = [])).
Proof.
  intros Ht. unfold effect, lookup_worthy.
  destruct (Nat.ltb_spec 2 (String.length (Js.trim (searchInput s)))) as [Hq|Hq].
  - cbn. split; [done|]. left. split; [done|]. rewrite Ht.
    by eexists.
  - cbn. split; [done|]. right. split; [lia|done].
Qed.

Lemma setSearchInput_inv s q : menu_inv s → menu_inv (setSearchInput q s).
Proof.
  intros Hinv. unfold setSearchInput.
  destruct (decide (q = searchInput s)) as [|Hq]; [done|].
  pose proof (run_cleanup_clears s q Hinv) as Hclear.
  pose proof (run_cleanup_fields
                {| searchInput := q; suggestions := suggestions s; now := now s;
                   timers := timers s; nextTimer := nextTimer s; cleanup := cleanup s;
                   lookups := lookups s |}) as (Hsi & Hlk & _).
  destruct (effect_after_cleanup _ Hclear) as [[Hl Hs] Hcase].
  destruct Hinv as [_ Hlook]. split.
  - destruct Hcase as [(Hw & tm & Ht & Hc & Hqt)|(_ & Ht & _)]; [right|by left].
    exists tm. rewrite Hs. split; [done|]. split; [done|]. split; [done|].
    by rewrite Hqt.
  - rewrite Hl, Hlk. exact Hlook.
Qed.

Lemma lookup_worthy_length q : lookup_worthy q → Nat.ltb (String.length q) 3 = false.
Proof.
  unfold lookup_worthy. intros H. pose proof (trim_length q).
  apply Nat.ltb_ge. lia.
Qed.

(** Time passes: the pending lookup stays, or it leaves and nothing is
    pending. *)
Lemma advance_cases dt s :
  menu_inv s →
  (timers (advance dt s) = timers s ∧ lookups (advance dt s) = lookups s)
  ∨ (∃ tm, timers s = [tm] ∧ timers (advance dt s) = []
       ∧ lookups (advance dt s) = lookups s ++ [query tm]).
Proof.
  intros [[Ht|(tm & Ht & _ & _ & Hw)] _]; unfold advance; rewrite Ht.
  - left. by rewrite !filter_nil.
  - rewrite !filter_cons, !filter_nil.
    destruct (decide (due tm ≤ now s + dt)) as [Hdue|Hdue].
    + destruct (decide (¬ due tm ≤ now s + dt)) as [|_]; [done|].
      right. exists tm. cbn. unfold fetchSuggestions_begin.
      by rewrite (lookup_worthy_length _ Hw).
    + destruct (decide (¬ due tm ≤ now s + dt)) as [_|Hn]; [by left|].
      by destruct Hn.
Qed.

Lemma advance_fields dt s :
  menu_inv s →
  searchInput (advance dt s) = searchInput s ∧ cleanup (advance dt s) = cleanup s.
Proof.
  intros [[Ht|(tm & Ht & _ & _ & Hw)] _]; unfold advance; rewrite Ht.
  - by rewrite !filter_nil.
  - rewrite !filter_cons, !filter_nil.
    destruct (decide (due tm ≤ now s + dt)); [|done].
    cbn. unfold fetchSuggestions_begin. by rewrite (lookup_worthy_length _ Hw).
Qed.

Lemma advance_inv dt s : menu_inv s → menu_inv (advance dt s).
Proof.
  intros Hinv. destruct (advance_fields dt s Hinv) as [Hs Hc].
  destruct (advance_cases dt s Hinv) as [[Ht Hl]|(tm & Ht & Ht' & Hl)];
    destruct Hinv as [Hpend Hlook]; split.
  - rewrite Ht, Hs, Hc. exact Hpend.
  - by rewrite Hl.
  - by left.
  - rewrite Hl. apply Forall_app. split; [done|]. apply Forall_singleton.
    destruct Hpend as [Hn|(tm' & Htm & _ & _ & Hw)]; [by rewrite Hn in Ht|].
    rewrite Ht in Htm. by injection Htm as ->.
Qed.

Lemma fetchSuggestions_end_fields reply s :
  searchInput (fetchSuggestions_end reply s) = searchInput s
  ∧ timers (fetchSuggestions_end reply s) = timers s
  ∧ cleanup (fetchSuggestions_end reply s) = cleanup s
  ∧ lookups (fetchSuggestions_end reply s) = lookups s.
Proof.
  unfold fetchSuggestions_end.
  destruct reply as [r|e]; [|done].
  destruct (Net.json r) as [[|data|]|e]; done.
Qed.

Lemma handleSelectSuggestion_menu city app s :
  (handleSelectSuggestion city app s).1.2
  = setSuggestions [] (setSearchInput EmptyString s).
Proof.
  destruct (App.find_ci (name city +:+ ", " +:+ country city) (App.cities app))
    as [[i c]|] eqn:Hf.
  - by rewrite (handleSelectSuggestion_existing _ _ _ _ _ Hf).
  - by rewrite (handleSelectSuggestion_new _ _ _ Hf).
Qed.

Lemma not_lookup_worthy_empty : ¬ lookup_worthy EmptyString.
Proof. unfold lookup_worthy. vm_compute. lia. Qed.

Lemma setSearchInput_empty s :
  menu_inv s →
  searchInput (setSearchInput EmptyString s) = EmptyString
  ∧ timers (setSearchInput EmptyString s) = []
  ∧ lookups (setSearchInput EmptyString s) = lookups s.
Proof.
  intros Hinv. unfold setSearchInput.
  destruct (decide (EmptyString = searchInput s)) as [He|Hne].
  - split; [done|]. split; [|done].
    destruct Hinv as [[Ht|(tm & _ & _ & Hq & Hw)] _]; [done|].
    rewrite Hq, <- He in Hw. by destruct not_lookup_worthy_empty.
  - pose proof (run_cleanup_clears s EmptyString Hinv) as Hclear.
    match goal with
    | H : timers (run_cleanup ?x) = [] |- _ =>
        destruct (run_cleanup_fields x) as (Hsi & Hlk & _)
    end.
    destruct (effect_after_cleanup _ Hclear) as [[Hl Hs] Hcase].
    rewrite Hs, Hl, Hsi, Hlk. split; [done|]. split; [|done].
    destruct Hcase as [[Hw _]|(_ & Ht & _)]; [|done].
    rewrite Hsi in Hw. by destruct not_lookup_worthy_empty.
Qed.

Lemma accept_inv city app s :
  menu_inv s → menu_inv (handleSelectSuggestion city app s).1.2.
Proof.
  intros Hinv. rewrite handleSelectSuggestion_menu.
  exact (setSearchInput_inv s EmptyString Hinv).
Qed.

Lemma menu_step_inv s ev : menu_inv s → menu_inv (menu_step s ev).
Proof.
  intros Hinv. destruct ev as [q|dt|reply|city app]; simpl.
  - by apply setSearchInput_inv.
  - by apply advance_inv.
  - destruct (fetchSuggestions_end_fields reply s) as (Hs & Ht & Hc & Hl).
    unfold menu_inv. rewrite Hs, Ht, Hc, Hl. exact Hinv.
  - by apply accept_inv.
Qed.

Lemma menu_run_inv evs s : menu_inv s → menu_inv (menu_run evs s).
Proof.
  revert s. induction evs as [|ev evs IH]; intros s H; [done|].
  simpl. apply IH. by apply menu_step_inv.
Qed.

(** A keystroke sends nothing and leaves at most one lookup pending; time
    moves the pending lookup to the lookups sent; a reply does neither. *)
Lemma menu_step_budget s ev :
  menu_inv s →
  length (lookups (menu_step s ev)) + length (timers (menu_step s ev))
  ≤ length (lookups s) + length (timers s)
    + match ev with Typed _ => 1 | _ => 0 end.
Proof.
  intros Hinv. destruct ev as [q|dt|reply|city app]; simpl.
  - pose proof (menu_inv_timers_length _ (setSearchInput_inv s q Hinv)).
    assert (lookups (setSearchInput q s) = lookups s) as ->; [|lia].
    unfold setSearchInput. destruct (decide (q = searchInput s)); [done|].
    pose proof (run_cleanup_clears s q Hinv) as Hclear.
    destruct (effect_after_cleanup _ Hclear) as [[-> _] _].
    match goal with
    | |- lookups (run_cleanup ?x) = _ =>
        by destruct (run_cleanup_fields x) as (_ & -> & _)
    end.
  - destruct (advance_cases dt s Hinv) as [[-> ->]|(tm & -> & -> & ->)]; [lia|].
    rewrite length_app. simpl. lia.
  - destruct (fetchSuggestions_end_fields reply s) as (_ & -> & _ & ->). lia.
  - rewrite handleSelectSuggestion_menu.
    destruct (setSearchInput_empty s Hinv) as (_ & Ht & Hl).
    cbn [setSuggestions lookups timers]. rewrite Ht, Hl. simpl. lia.
Qed.

Lemma menu_run_budget evs s :
  menu_inv s →
  length (lookups (menu_run evs s)) + length (timers (menu_run evs s))
  ≤ length (lookups s) + length (timers s) + typed_count evs.
Proof.
  revert s. induction evs as [|ev evs IH]; intros s Hinv; [simpl; lia|].
  simpl. etransitivity; [apply IH; by apply menu_step_inv|].
  pose proof (menu_step_budget s ev Hinv) as H.
  change (typed_count (ev :: evs))
    with (match ev with Typed _ => 1 | _ => 0 end + typed_count evs).
  lia.
Qed.

End MenuInvariant.

(** X10: whatever is typed into the search box, however much time passes
    between keystrokes, whatever replies arrive and whichever suggestions
    are accepted, at most one lookup is pending at any time, and a pending
    lookup is for the text that is in the box and is the one the next
    keystroke clears. *)
Theorem at_most_one_lookup_pending (t0 : nat) (evs : list MenuEvent) :
  let s := menu_run evs (MenuScreen.mount t0) in
  length (MenuScreen.timers s) ≤ 1
  ∧ ∀ tm, tm ∈ MenuScreen.timers s →
      MenuScreen.query tm = MenuScreen.searchInput s
      ∧ MenuScreen.cleanup s = Some (MenuScreen.timer_id tm)
      ∧ 2 < String.length (Js.trim (MenuScreen.searchInput s)).
Proof.
  intros s.
  pose proof (menu_run_inv evs _ (menu_inv_mount t0)) as Hinv. fold s in Hinv.
  split; [by apply menu_inv_timers_length|].
  intros tm Htm. destruct Hinv as [[Hn|(tm' & Ht & Hc & Hq & Hw)] _].
  - rewrite Hn in Htm. by apply elem_of_nil in Htm.
  - rewrite Ht in Htm. apply list_elem_of_singleton in Htm. subst tm'.
    split; [done|]. split; [done|]. by rewrite <- Hq.
Qed.

(** X11: whatever is typed and accepted, with whatever timing, every lookup
    sent to the geocoding endpoint is for a text of trimmed length 3 or
    more (so the length test at the head of [fetchSuggestions] never stops
    a scheduled lookup), and the lookups sent and pending together are no
    more than the keystrokes. *)
Theorem lookups_are_worth_sending (t0 : nat) (evs : list MenuEvent) :
  let s := menu_run evs (MenuScreen.mount t0) in
  Forall (λ q, 2 < String.length (Js.trim q) ∧ 3 ≤ String.length q)
    (MenuScreen.lookups s)
  ∧ length (MenuScreen.lookups s) + length (MenuScreen.timers s) ≤ typed_count evs.
Proof.
  intros s.
  pose proof (menu_run_inv evs _ (menu_inv_mount t0)) as [_ Hlook]. fold s in Hlook.
  split.
  - eapply Forall_impl; [exact Hlook|]. intros q Hq. split; [exact Hq|].
    unfold lookup_worthy in Hq. pose proof (trim_length q). lia.
  - pose proof (menu_run_budget evs _ (menu_inv_mount t0)) as H.
    fold s in H. simpl in H. exact H.
Qed.

Example slow_typing_sends_every_text :
  MenuScreen.lookups
    (menu_run [Typed "Lon"; Waited 300; Typed "Lond"; Waited 300; Typed "Lo"; Waited 300]
       (MenuScreen.mount 0))
  = ["Lon"; "Lond"].
Proof. by vm_compute. Qed.

(** ** The suggestion list *)

Section SuggestionList.
Import MenuScreen.

Lemma append_sep_inj (sep : ascii) (n1 c1 n2 c2 : string) :
  Js.includes sep c1 = false → Js.includes sep c2 = false →
  n1 +:+ String sep c1 = n2 +:+ String sep c2 → n1 = n2 ∧ c1 = c2.
Proof.
  intros H1 H2. revert n2.
  induction n1 as [|a n1 IH]; intros [|b n2]; simpl.
  - by intros [= ->].
  - intros [= <- ->]. exfalso.
    clear -H1. induction n2 as [|b n2 IH]; simpl in H1.
    + by rewrite Ascii.eqb_refl in H1.
    + apply orb_false_elim in H1 as [_ H1]. by apply IH.
  - intros [= -> <-]. exfalso.
    clear -H2. induction n1 as [|b n1 IH]; simpl in H2.
    + by rewrite Ascii.eqb_refl in H2.
    + apply orb_false_elim in H2 as [_ H2]. by apply IH.
  - intros [= -> Heq]. destruct (IH _ Heq) as [-> ->]. done.
Qed.

Lemma suggestions_of_pairs_NoDup (data : list Net.GeoEntry) :
  NoDup (shown_pair <$> suggestions_of data).
Proof.
  rewrite suggestions_of_key, <- list_fmap_compose.
  apply (NoDup_fmap_1 (λ p : string * string, p.1 +:+ "," +:+ p.2)).
  rewrite <- list_fmap_compose.
  exact (first_occurrences_from_NoDup key_of [] data).
Qed.

End SuggestionList.

(** X12: for every array the geocoding endpoint returns, no two suggestions
    built from it show the same name and country; the suggestions are
    results of the array in the array's order, hence no more than the
    results; and every result is represented, by the first result that has
    its [name,country] key. *)
Theorem suggestions_are_distinct_results (data : list Net.GeoEntry) :
  NoDup (shown_pair <$> MenuScreen.suggestions_of data)
  ∧ MenuScreen.suggestions_of data `sublist_of` (MenuScreen.suggestion_of <$> data)
  ∧ length (MenuScreen.suggestions_of data) ≤ length data
  ∧ ∀ item, item ∈ data →
      ∃ i first,
        list_find (λ y, MenuScreen.key_of y = MenuScreen.key_of item) data
          = Some (i, first)
        ∧ MenuScreen.suggestion_of first ∈ MenuScreen.suggestions_of data.
Proof.
  assert (MenuScreen.suggestions_of data
            `sublist_of` (MenuScreen.suggestion_of <$> data)) as Hsub.
  { rewrite suggestions_of_key. apply fmap_sublist.
    apply first_occurrences_from_sublist. }
  split; [apply suggestions_of_pairs_NoDup|]. split; [exact Hsub|]. split.
  - apply sublist_length in Hsub. by rewrite length_fmap in Hsub.
  - intros item Hitem.
    destruct (list_find_elem_of
                (λ y, MenuScreen.key_of y = MenuScreen.key_of item) data item Hitem eq_refl)
      as [[i first] Hfind].
    exists i, first. split; [exact Hfind|].
    rewrite suggestions_of_key. apply list_elem_of_fmap. exists first.
    split; [done|].
    eapply first_occurrences_from_first; [exact Hfind|]. apply not_elem_of_nil.
Qed.

Section RowKeys.
Import MenuScreen.
Local Arguments String.append !_ _ / : simpl nomatch.

Lemma rowKey_inj_on (l : list Suggestion) :
  Forall (λ sg, Js.includes "-" (country sg) = false) l →
  NoDup (shown_pair <$> l) → NoDup (rowKey <$> l).
Proof.
  induction l as [|sg l IH]; intros Hall Hnd; [constructor|].
  apply Forall_cons in Hall as [Hsg Hall].
  rewrite fmap_cons in Hnd. apply NoDup_cons in Hnd as [Hnin Hnd].
  rewrite fmap_cons. apply NoDup_cons. split; [|by apply IH].
  intros Hin. apply Hnin.
  apply list_elem_of_fmap in Hin as (sg' & Heq & Hsg').
  apply list_elem_of_fmap. exists sg'. split; [|done].
  rewrite Forall_forall in Hall. specialize (Hall _ Hsg').
  unfold rowKey in Heq. simpl in Heq.
  destruct (append_sep_inj _ _ _ _ _ Hsg Hall Heq) as [Hn Hc].
  unfold shown_pair. by rewrite Hn, Hc.
Qed.

End RowKeys.

(** X13: when no country code of the results contains a hyphen, the rows
    of the suggestion list have pairwise different React keys
    [`${item.name}-${item.country}`]. *)
Theorem suggestion_rows_have_distinct_keys (data : list Net.GeoEntry)
  (Hdata : Forall no_hyphen_in_country data) :
  NoDup (rowKey <$> MenuScreen.suggestions_of data).
Proof.
  apply rowKey_inj_on; [|apply suggestions_of_pairs_NoDup].
  rewrite suggestions_of_key. apply Forall_fmap.
  eapply Forall_sublist_of; [apply first_occurrences_from_sublist|exact Hdata].
Qed.

Lemma suggestion_rows_have_distinct_keys_witness :
  Forall no_hyphen_in_country springfield_twice
  ∧ NoDup (rowKey <$> MenuScreen.suggestions_of springfield_twice).
Proof.
  assert (Forall no_hyphen_in_country springfield_twice) as H.
  { repeat constructor. }
  split; [exact H|].
  exact (suggestion_rows_have_distinct_keys springfield_twice H).
Defined.

Example hyphen_in_country_shares_a_key :
  length (MenuScreen.suggestions_of hyphen_in_country) = 2
  ∧ rowKey <$> MenuScreen.suggestions_of hyphen_in_country = ["A-B-C"; "A-B-C"].
Proof. by vm_compute. Qed.

(** ** Accepting a suggestion *)

Section AcceptSuggestion.
Import MenuScreen.
Local Arguments String.append !_ _ / : simpl nomatch.

Lemma cityIdentifier_nonempty city : cityIdentifier city ≠ EmptyString.
Proof. unfold cityIdentifier. by destruct (name city). Qed.

Lemma find_ci_snoc x cs c :
  ¬ ci_member x (App.id <$> cs) →
  Js.toLowerCase (App.id c) = Js.toLowerCase x →
  App.find_ci x (cs ++ [c]) = Some (length cs, c).
Proof.
  intros Hfresh Hc. apply list_find_Some. split; [|split; [done|]].
  - by rewrite lookup_app_r, Nat.sub_diag.
  - intros j y Hj Hlt Hy. apply Hfresh.
    rewrite lookup_app_l in Hj by done.
    exists (App.id y). split; [|done].
    apply list_elem_of_fmap. exists y. split; [done|].
    by apply list_elem_of_lookup_2 in Hj.
Qed.

End AcceptSuggestion.

(** X14: whatever was typed before, with whatever timing, accepting a
    suggestion empties the search box and the suggestion list and leaves no
    lookup pending: the lookup that was scheduled for the text in the box
    is cancelled, and no request leaves afterwards however long one
    waits. *)
Theorem accepting_a_suggestion_resets_search
  (t0 : nat) (evs : list MenuEvent) (city : MenuScreen.Suggestion)
  (app : App.State) (dt : nat) :
  let s := menu_run evs (MenuScreen.mount t0) in
  let s' := (MenuScreen.handleSelectSuggestion city app s).1.2 in
  MenuScreen.searchInput s' = EmptyString
  ∧ MenuScreen.suggestions s' = []
  ∧ MenuScreen.timers s' = []
  ∧ MenuScreen.lookups s' = MenuScreen.lookups s
  ∧ MenuScreen.lookups (MenuScreen.advance dt s') = MenuScreen.lookups s.
Proof.
  intros s s'.
  pose proof (menu_run_inv evs _ (menu_inv_mount t0)) as Hinv. fold s in Hinv.
  destruct (setSearchInput_empty s Hinv) as (Hsi & Ht & Hl).
  assert (s' = MenuScreen.setSuggestions []
                 (MenuScreen.setSearchInput EmptyString s)) as ->
    by apply handleSelectSuggestion_menu.
  cbn [MenuScreen.setSuggestions MenuScreen.searchInput MenuScreen.suggestions
       MenuScreen.timers MenuScreen.lookups].
  split; [done|]. split; [done|]. split; [done|]. split; [done|].
  unfold MenuScreen.advance.
  cbn [MenuScreen.setSuggestions MenuScreen.searchInput MenuScreen.suggestions
       MenuScreen.timers MenuScreen.lookups MenuScreen.now MenuScreen.nextTimer
       MenuScreen.cleanup].
  by rewrite Ht, !filter_nil.
Qed.

Example accepting_cancels_the_pending_lookup :
  MenuScreen.timers (menu_run [Typed "Par"; Waited 100] (MenuScreen.mount 0)) ≠ []
  ∧ MenuScreen.lookups
      (MenuScreen.advance 1000
         (MenuScreen.handleSelectSuggestion paris_fr (App.initial "en-US")
            (menu_run [Typed "Par"; Waited 100] (MenuScreen.mount 0))).1.2) = [].
Proof. by vm_compute. Qed.

(** X15: a suggestion whose identifier [name, country] has no white space
    at its ends and matches no tracked location is added when it is
    accepted, as the last location and under that identifier; accepting it
    a second time adds nothing and scrolls to that location. *)
Theorem accepting_twice_adds_once
  (city : MenuScreen.Suggestion) (app : App.State) (s s1 : MenuScreen.State)
  (Htrim : Js.trim (cityIdentifier city) = cityIdentifier city)
  (Hfresh : ¬ ci_member (cityIdentifier city) (App_ids app)) :
  let first := MenuScreen.handleSelectSuggestion city app s in
  let second := MenuScreen.handleSelectSuggestion city first.1.1 s1 in
  App.cities first.1.1
    = App.cities app
      ++ [ {| App.id := cityIdentifier city; App.name := cityIdentifier city |} ]
  ∧ first.2 = added 300
  ∧ second.1.1 = App.setMenuVisible false first.1.1
  ∧ second.2 = [FlatList_scrollToIndex (length (App.cities app))].
Proof.
  intros first second.
  assert (App.find_ci (cityIdentifier city) (App.cities app) = None) as Hnone.
  { destruct (App.find_ci _ _) eqn:Hf; [|done].
    destruct Hfresh. apply find_ci_member. by rewrite Hf. }
  assert (first = (App.setCities
                     (App.cities app
                      ++ [ {| App.id := cityIdentifier city;
                              App.name := cityIdentifier city |} ]) app,
                   MenuScreen.setSuggestions []
                     (MenuScreen.setSearchInput EmptyString s),
                   added 300)) as Hfirst.
  { unfold first. rewrite (handleSelectSuggestion_new _ _ _ Hnone).
    fold (cityIdentifier city). rewrite App_addCity_fresh.
    - by rewrite Htrim.
    - rewrite Htrim. apply cityIdentifier_nonempty.
    - rewrite Htrim. apply ci_member_Forall in Hfresh.
      by apply (proj1 (Forall_fmap App.id _ (App.cities app))) in Hfresh. }
  assert (second = (App.setMenuVisible false first.1.1,
                    MenuScreen.setSuggestions []
                      (MenuScreen.setSearchInput EmptyString s1),
                    [FlatList_scrollToIndex (length (App.cities app))])) as Hsecond.
  { unfold second. rewrite Hfirst. cbn [fst snd].
    apply (handleSelectSuggestion_existing _ _ _ _
             {| App.id := cityIdentifier city; App.name := cityIdentifier city |}).
    cbn [App.setCities App.cities]. by apply find_ci_snoc. }
  rewrite Hsecond, Hfirst. done.
Qed.

Lemma accepting_twice_adds_once_witness :
  (MenuScreen.handleSelectSuggestion paris_fr (App.initial "en-US") (MenuScreen.mount 0)).2
    = added 300
  ∧ (MenuScreen.handleSelectSuggestion paris_fr
       (MenuScreen.handleSelectSuggestion paris_fr (App.initial "en-US") (MenuScreen.mount 0)).1.1
       (MenuScreen.mount 0)).2
    = [FlatList_scrollToIndex 3].
Proof.
  assert (Js.trim (cityIdentifier paris_fr) = cityIdentifier paris_fr) as Htrim
    by reflexivity.
  assert (¬ ci_member (cityIdentifier paris_fr) (App_ids (App.initial "en-US"))) as Hfresh.
  { intros (i & Hi & Heq). vm_compute in Hi.
    repeat (apply elem_of_cons in Hi as [->|Hi]; [by vm_compute in Heq|]).
    by apply elem_of_nil in Hi. }
  destruct (accepting_twice_adds_once paris_fr (App.initial "en-US")
              (MenuScreen.mount 0) (MenuScreen.mount 0) Htrim Hfresh)
    as (_ & H1 & _ & H2).
  split; [exact H1|exact H2].
Defined.

(** With white space at the start of the name the identifier is stored
    trimmed, the second accept looks for the untrimmed one, finds no
    location, and ends in the City Exists notice. *)
Example accepting_twice_padded_name :
  (MenuScreen.handleSelectSuggestion padded_name
     (MenuScreen.handleSelectSuggestion padded_name (App.initial "en-US") (MenuScreen.mount 0)).1.1
     (MenuScreen.mount 0)).2
  = cityExists "Paris, FR".
Proof. by vm_compute. Qed.

(** X16: whatever is typed and accepted, with whatever timing, and
    whatever the geocoding endpoint answers, the suggestion list on the
    screen never shows the same name and country twice. *)
Theorem suggestions_on_screen_are_distinct (t0 : nat) (evs : list MenuEvent) :
  NoDup (shown_pair <$> MenuScreen.suggestions (menu_run evs (MenuScreen.mount t0))).
Proof.
  assert (∀ s, NoDup (shown_pair <$> MenuScreen.suggestions s) → menu_inv s →
               NoDup (shown_pair <$> MenuScreen.suggestions (menu_run evs s))) as H.
  { induction evs as [|ev evs IH]; intros s Hnd Hinv; [done|].
    simpl. apply IH; [|by apply menu_step_inv].
    destruct ev as [q|dt|reply|city app]; simpl.
    - unfold MenuScreen.setSearchInput.
      destruct (decide (q = MenuScreen.searchInput s)); [done|].
      pose proof (run_cleanup_clears s q Hinv) as Hclear.
      match goal with
      | H : MenuScreen.timers (MenuScreen.run_cleanup ?x) = [] |- _ =>
          destruct (run_cleanup_fields x) as (_ & _ & Hsg)
      end.
      unfold MenuScreen.effect.
      destruct (Nat.ltb _ _); cbn; [by rewrite Hsg|constructor].
    - assert (MenuScreen.suggestions (MenuScreen.advance dt s)
              = MenuScreen.suggestions s) as ->; [|done].
      destruct Hinv as [[Ht|(tm & Ht & _ & _ & Hw)] _];
        unfold MenuScreen.advance; rewrite Ht.
      + by rewrite !filter_nil.
      + rewrite !filter_cons, !filter_nil.
        destruct (decide (MenuScreen.due tm ≤ MenuScreen.now s + dt)); [|done].
        cbn. unfold MenuScreen.fetchSuggestions_begin.
        by rewrite (lookup_worthy_length _ Hw).
    - unfold MenuScreen.fetchSuggestions_end.
      destruct reply as [r|e]; [|constructor].
      destruct (Net.json r) as [[|data|]|e]; cbn; try done; try constructor.
      apply suggestions_of_pairs_NoDup.
    - rewrite handleSelectSuggestion_menu. constructor. }
  apply H; [constructor|apply menu_inv_mount].
Qed.

(** ** The settings screen *)

Section Settings.
Import SettingsScreen.

Lemma startsWith_two (s : string) (a b : ascii) :
  startsWith s (String a (String b EmptyString)) = true →
  ∃ r, s = String a (String b r).
Proof.
  unfold startsWith. destruct s as [|x [|y r]]; simpl.
  - done.
  - by destruct (ascii_dec a x).
  - destruct (ascii_dec a x) as [->|]; [|done].
    destruct (ascii_dec b y) as [->|]; [|done]. by exists r.
Qed.

Lemma at_most_one_language (currentLocale : string) (u : UnitSystem) (b c : Button) :
  b ∈ languageButtons → c ∈ languageButtons →
  active currentLocale u b = true → active currentLocale u c = true → b = c.
Proof.
  intros Hb Hc Hab Hac.
  apply (bool_decide_pack _) in Hb. apply (bool_decide_pack _) in Hc.
  destruct b; try discriminate Hb; destruct c; try discriminate Hc; try done;
    apply startsWith_two in Hab as [r1 ->];
    apply startsWith_two in Hac as [r2 Heq]; discriminate.
Qed.

Lemma exactly_one_unit (currentLocale : string) (u : UnitSystem) :
  active currentLocale u Fahrenheit = negb (active currentLocale u Celsius).
Proof. by destruct u. Qed.

End Settings.

(** X17: on the settings screen exactly one of the two unit buttons is
    drawn active and at most one of the three language buttons, whatever
    the locale; after a button is pressed it is drawn active, and the
    buttons of the other setting are drawn as before. This holds with the
    handlers of either application. *)
Theorem settings_pressed_button_is_active :
  (∀ currentLocale u,
     SettingsScreen.active currentLocale u SettingsScreen.Fahrenheit
     = negb (SettingsScreen.active currentLocale u SettingsScreen.Celsius))
  ∧ (∀ currentLocale u b c,
       b ∈ languageButtons → c ∈ languageButtons →
       SettingsScreen.active currentLocale u b = true →
       SettingsScreen.active currentLocale u c = true → b = c)
  ∧ (∀ (s : App.State) b c,
       SettingsScreen.render_App (SettingsScreen.onPress_App b s) c
       = if sameSetting b c then bool_decide (b = c)
         else SettingsScreen.render_App s c)
  ∧ (∀ (t : Index.State) b c,
       SettingsScreen.render_Index (SettingsScreen.onPress_Index b t) c
       = if sameSetting b c then bool_decide (b = c)
         else SettingsScreen.render_Index t c).
Proof.
  split; [apply exactly_one_unit|]. split; [apply at_most_one_language|].
  split; intros s b c; by destruct b, c.
Qed.

(** A device locale that is none of the three leaves all language buttons
    inactive; a longer tag that starts like one of the three activates its
    button, although the requests then go out with the longer tag. *)
Example settings_other_locales :
  SettingsScreen.active "fr-FR" imperial <$> languageButtons = [false; false; false]
  ∧ SettingsScreen.active "est" imperial <$> languageButtons = [false; true; false]
  ∧ WeatherSwiper.apiLang (Js.split_first "-" "est") = "est".
Proof. by vm_compute. Qed.

(** ** A row of the list of tracked locations *)

Section RowProofs.
Import CityListItem.
Context {Data : Type} (truthy : Data → bool).

Lemma run_snoc (evs : list (Event (Data := Data))) ev s :
  run (evs ++ [ev]) s = step (run evs s) ev.
Proof. unfold run. by rewrite fold_left_app. Qed.

Lemma row_weather_origin (evs : list Event) (w : Data) :
  weather (run evs mount) = Some w →
  ∃ response,
    Answered (Net.Resolved response) ∈ evs
    ∧ Net.ok response = true ∧ Net.json response = Net.Resolved w.
Proof.
  induction evs as [|ev evs IH] using rev_ind; [done|].
  rewrite run_snoc. intros Hw.
  assert (weather (run evs mount) = Some w →
          ∃ response,
            Answered (Net.Resolved response) ∈ evs ++ [ev]
            ∧ Net.ok response = true ∧ Net.json response = Net.Resolved w) as Hold.
  { intros H. destruct (IH H) as (r & Hin & Hr). exists r. split; [|done].
    apply elem_of_app. by left. }
  destruct ev as [|[response|e]]; simpl in Hw; [by apply Hold| |by apply Hold].
  unfold fetchCityWeather_end in Hw.
  destruct (Net.json response) as [data|e] eqn:Hjson; [|by apply Hold].
  destruct (Net.ok response) eqn:Hok; [|by apply Hold].
  simpl in Hw. injection Hw as ->. exists response. split; [|done].
  apply elem_of_app. right. by apply list_elem_of_singleton.
Qed.

End RowProofs.

(** X18: a row of the list of tracked locations draws weather only when
    it is not loading, and what it draws is the truthy body of an answer
    of the weather endpoint that was a success; a later answer that is not
    a success, or a rejected request, leaves that weather drawn. Right
    after a change of city the row shows the spinner; the next reply to
    arrive, whichever request it answers, sets loading off, and when that
    reply is no success the row draws the earlier weather again. *)
Theorem row_shows_only_successful_answers {Data : Type} (truthy : Data → bool)
  (evs : list CityListItem.Event) (w : Data)
  (Hshown : CityListItem.render truthy (CityListItem.run evs CityListItem.mount)
            = Some w) :
  CityListItem.loading (CityListItem.run evs CityListItem.mount) = false
  ∧ truthy w = true
  ∧ (∃ response,
       CityListItem.Answered (Net.Resolved response) ∈ evs
       ∧ Net.ok response = true ∧ Net.json response = Net.Resolved w)
  ∧ CityListItem.render truthy
      (CityListItem.run (evs ++ [CityListItem.CityChanged]) CityListItem.mount) = None
  ∧ (∀ reply,
       CityListItem.loading
         (CityListItem.run (evs ++ [CityListItem.CityChanged; CityListItem.Answered reply])
            CityListItem.mount) = false)
  ∧ ∀ reply,
      (∀ response, reply = Net.Resolved response →
         Net.ok response = false ∨ ∃ e, Net.json response = Net.Rejected e) →
      CityListItem.render truthy
        (CityListItem.run (evs ++ [CityListItem.Answered reply]) CityListItem.mount)
      = Some w
      ∧ CityListItem.render truthy
          (CityListItem.run (evs ++ [CityListItem.CityChanged; CityListItem.Answered reply])
             CityListItem.mount)
        = Some w.
Proof.
  unfold CityListItem.render in Hshown.
  destruct (CityListItem.weather _) as [w'|] eqn:Hw; [|done].
  destruct (CityListItem.loading _) eqn:Hl; [done|].
  destruct (truthy w') eqn:Ht; [|done].
  simpl in Hshown. injection Hshown as ->.
  assert (∀ reply, CityListItem.loading
            (CityListItem.fetchCityWeather_end reply
               (CityListItem.fetchCityWeather_begin
                  (CityListItem.run evs CityListItem.mount))) = false) as Hoff.
  { intros [response|e]; [|done]. unfold CityListItem.fetchCityWeather_end.
    by destruct (Net.json response). }
  assert (∀ s reply,
            CityListItem.weather s = Some w →
            (∀ response, reply = Net.Resolved response →
               Net.ok response = false ∨ ∃ e, Net.json response = Net.Rejected e) →
            CityListItem.render truthy (CityListItem.fetchCityWeather_end reply s)
            = Some w) as Hkeep.
  { intros s reply Hs Hfail. unfold CityListItem.render, CityListItem.fetchCityWeather_end.
    destruct reply as [response|e]; simpl; [|by rewrite Hs, Ht].
    destruct (Hfail response eq_refl) as [Hok|[e He]].
    - rewrite Hok. destruct (Net.json response); simpl; by rewrite Hs, Ht.
    - rewrite He. simpl. by rewrite Hs, Ht. }
  split; [done|]. split; [done|]. split; [by apply row_weather_origin|].
  split; [|split].
  - rewrite run_snoc. unfold CityListItem.render. simpl.
    by destruct (CityListItem.weather _).
  - intros reply.
    change (evs ++ [CityListItem.CityChanged; CityListItem.Answered reply])
      with (evs ++ [CityListItem.CityChanged] ++ [CityListItem.Answered reply]).
    rewrite app_assoc, !run_snoc. apply Hoff.
  - intros reply Hfail. split.
    + rewrite run_snoc. by apply Hkeep.
    + change (evs ++ [CityListItem.CityChanged; CityListItem.Answered reply])
        with (evs ++ [CityListItem.CityChanged] ++ [CityListItem.Answered reply]).
      rewrite app_assoc, !run_snoc. by apply Hkeep.
Qed.

Lemma row_shows_only_successful_answers_witness :
  CityListItem.render (Nat.ltb 0) (CityListItem.run row_events CityListItem.mount)
    = Some 72
  ∧ ∃ response,
      CityListItem.Answered (Net.Resolved response) ∈ row_events
      ∧ Net.ok response = true ∧ Net.json response = Net.Resolved 72.
Proof.
  assert (CityListItem.render (Nat.ltb 0)
            (CityListItem.run row_events CityListItem.mount) = Some 72) as H
    by reflexivity.
  split; [exact H|].
  exact (proj1 (proj2 (proj2
           (row_shows_only_successful_answers (Nat.ltb 0) row_events 72 H)))).
Defined.

(** A reply takes the spinner away also while another request is out:
    the reply to the request of the mount, after a change of city. *)
Example row_reply_while_another_is_out :
  CityListItem.render (Nat.ltb 0)
    (CityListItem.run
       [CityListItem.CityChanged; CityListItem.Answered (Net.Resolved warm_answer)]
       CityListItem.mount) = Some 72.
Proof. by vm_compute. Qed.

(** A row that never got a successful answer keeps its spinner: nothing
    tells the user that the lookup failed. *)
Example row_failed_lookup_keeps_spinner :
  CityListItem.render (Nat.ltb 0)
    (CityListItem.run
       [CityListItem.Answered (Net.Rejected (Net.JsError "Network request failed"))]
       CityListItem.mount) = None
  ∧ CityListItem.render (Nat.ltb 0)
      (CityListItem.run
         [CityListItem.Answered
            (Net.Resolved {| Net.ok := false; Net.json := Net.Resolved 404 |})]
         CityListItem.mount) = None.
Proof. by vm_compute. Qed.

(** Nothing ties a reply to the text it was asked for: the reply to a
    lookup that left before the box was emptied fills the list again. *)
Example late_reply_repopulates :
  MenuScreen.searchInput
    (menu_run [Typed "Spr"; Waited 300; Typed EmptyString;
               Replied (Net.Resolved {| Net.ok := true;
                                        Net.json := Net.Resolved (Net.JsonArray springfield_twice) |})]
       (MenuScreen.mount 0)) = EmptyString
  ∧ length (MenuScreen.suggestions
      (menu_run [Typed "Spr"; Waited 300; Typed EmptyString;
                 Replied (Net.Resolved {| Net.ok := true;
                                          Net.json := Net.Resolved (Net.JsonArray springfield_twice) |})]
         (MenuScreen.mount 0))) = 2.
Proof. by vm_compute. Qed.
